(** * Multibox planner: the recommendation engine of [app/recommender.py]

    A shallow embedding of the recommendation core (availability, role
    pools, constraint forcing, slot-aware scoring, enumeration and
    ranking) together with the properties stated about it.

    Conventions of the embedding.
    - Python [str] is [string]; class, slot, era and mode names stay strings,
      compared as the source compares them.
    - Python [int] is [Z]; Python [float] is the kernel's binary64 [float],
      with the operations applied in the order the source applies them.
    - [dict] is [gmap], a [set] of classes is [gset string]; a set that the
      source iterates over ([must_include]) is carried as the list of its
      elements in iteration order, so every statement covers every order.
    - A function that can raise returns [option]; [None] is the exception. *)

From Stdlib Require Import ZArith Floats.
From stdpp Require Import gmap strings list sorting.

Local Open Scope string_scope.
Local Open Scope list_scope.

(* Decimal weights such as 0.85 denote the nearest binary64 value, as in
   Python. *)
Set Warnings "-inexact-float".

(** ** Python built-ins used by the source *)

Module Py.

(** [l.sort(reverse=True, key=...)]: stable, descending.  An element
    passes over the strictly larger keys only, so equal keys keep the order
    they had. *)
Section sort.
Context {A : Type} (key : A → Z).

Fixpoint insert_desc (x : A) (l : list A) : list A :=
  match l with
  | [] => [x]
  | y :: l' =>
      if (key x <? key y)%Z then y :: insert_desc x l' else x :: y :: l'
  end.

Fixpoint sort_desc (l : list A) : list A :=
  match l with
  | [] => []
  | x :: l' => insert_desc x (sort_desc l')
  end.
End sort.

(** [sorted(s)] for a collection of strings. *)
Definition sorted (l : list string) : list string :=
  merge_sort String.le l.

(** [l[:n]] for a Python int [n]: a negative bound counts from the end. *)
Definition slice_to {A} (l : list A) (n : Z) : list A :=
  if (n <? 0)%Z then take (Z.to_nat (Z.of_nat (length l) + n)) l
  else take (Z.to_nat n) l.

(** [float(z)] for an int: exact below 2^53 in magnitude, the range of
    every value the rating tables hold (scores are 0..100). *)
Definition float_of_int (z : Z) : float :=
  if (z <? 0)%Z then PrimFloat.opp (PrimFloat.of_uint63 (Uint63.of_Z (- z)))
  else PrimFloat.of_uint63 (Uint63.of_Z z).

(** The exact value of a finite float as a fraction [num / 2^k]. *)
Definition float_num_den (f : float) : Z * Z :=
  match Prim2SF f with
  | S754_finite s m e =>
      let sm := if s then Z.neg m else Z.pos m in
      match e with
      | Z.neg p => (sm, Z.pow 2 (Z.pos p))
      | _ => ((sm * Z.pow 2 e)%Z, 1%Z)
      end
  | _ => (0%Z, 1%Z)
  end.

(** [int(f)]: the fraction truncated toward zero. *)
Definition int_of_float (f : float) : Z :=
  let '(n, d) := float_num_den f in Z.quot n d.

(** [math.floor(f)], for comparison with [int_of_float]. *)
Definition floor (f : float) : Z :=
  let '(n, d) := float_num_den f in Z.div n d.

(** [max(a, b)] on floats: [b] when [b > a], else [a]. *)
Definition fmax (a b : float) : float :=
  if PrimFloat.ltb a b then b else a.

(** [itertools.product] over the pools: the rightmost pool advances
    fastest. *)
Fixpoint product {A} (pools : list (list A)) : list (list A) :=
  match pools with
  | [] => [[]]
  | p :: ps => x ← p; (x ::.) <$> product ps
  end.

(** [itertools.combinations(l, k)], in lexicographic order of positions. *)
Fixpoint combinations {A} (k : nat) (l : list A) : list (list A) :=
  match k, l with
  | O, _ => [[]]
  | S _, [] => []
  | S k', x :: l' => ((x ::.) <$> combinations k' l') ++ combinations k l'
  end.

End Py.

(** ** Data model *)

(** [ratings: era -> class -> category -> score]. *)
Abbreviation ratings_t := (gmap string (gmap string (gmap string Z))).

(** The two fields of a ruleset that the engine reads.  [None] stands for a
    key that is absent or holds a false value ([null], an empty object). *)
Record ruleset := {
  add_classes_by_era : option (gmap string (list string));
  remove_classes_by_era : option (gmap string (list string));
}.

Definition PORTERS : gset string := {[ "Wizard"; "Druid" ]}.
Definition RUN_SPEED : gset string := {[ "Bard"; "Druid"; "Shaman"; "Ranger" ]}.
Definition CHARMERS : gset string := {[ "Enchanter" ]}.
Definition PET_DPS : gset string := {[ "Magician"; "Necromancer"; "Beastlord" ]}.
Definition KITERS : gset string :=
  {[ "Necromancer"; "Druid"; "Wizard"; "Bard"; "Ranger" ]}.
Definition SLOWERS : gset string := {[ "Shaman"; "Enchanter" ]}.
Definition CCERS : gset string := {[ "Enchanter"; "Bard" ]}.
Definition SNARERS : gset string := {[ "Wizard"; "Druid"; "Ranger" ]}.
Definition MELEE_DPS : gset string := {[ "Monk"; "Rogue"; "Ranger"; "Berserker" ]}.
Definition CASTER_DPS : gset string :=
  {[ "Wizard"; "Magician"; "Necromancer"; "Enchanter"; "Druid" ]}.
Definition TANKS : gset string := {[ "Warrior"; "Shadowknight"; "Paladin" ]}.
Definition HEALERS : gset string := {[ "Cleric"; "Druid"; "Shaman" ]}.
Definition PET_TANKERS : gset string := {[ "Magician"; "Necromancer"; "Beastlord" ]}.

(** Truthiness of a set: [bool(s)]. *)
Definition nonempty (s : gset string) : bool := bool_decide (s ≠ ∅).

(** [c in s] as a boolean. *)
Definition mem (c : string) (s : gset string) : bool := bool_decide (c ∈ s).

(** [set(l)]. *)
Definition set_of (l : list string) : gset string := list_to_set l.

(** ** Availability and filtering *)

Definition get_available_classes
    (ratings : ratings_t) (era : string) (rs : ruleset) : list string :=
  let base : gset string := dom (default ∅ (ratings !! era)) in
  let add_map := default ∅ (add_classes_by_era rs) in
  let remove_map := default ∅ (remove_classes_by_era rs) in
  let additions := set_of (default [] (add_map !! era)) in
  let removals := set_of (default [] (remove_map !! era)) in
  let final := (base ∪ additions) ∖ removals in
  Py.sorted (elements final).

Definition comp_matches_filters
    (comp : list string) (must_include : list string) (exclude : gset string)
    : bool :=
  let comp_set := set_of comp in
  if nonempty (comp_set ∩ exclude) then false
  else if negb (forallb (λ m, mem m comp_set) must_include) then false
  else true.

Definition comp_matches_constraints
    (comp : list string)
    (require_ports require_run_speed require_charm require_pet_heavy
       require_kiting : bool) : bool :=
  let comp_set := set_of comp in
  if require_ports && negb (nonempty (PORTERS ∩ comp_set)) then false
  else if require_run_speed && negb (nonempty (RUN_SPEED ∩ comp_set)) then false
  else if require_charm && negb (mem "Enchanter" comp_set) then false
  else if require_pet_heavy && negb (nonempty (PET_DPS ∩ comp_set)) then false
  else if require_kiting && negb (nonempty (KITERS ∩ comp_set)) then false
  else true.

(** ** Default comps *)

(** [filter_default_comps]: the loop over [(rank, comp)] pairs. *)
Definition filter_default_comps
    (defaults_for_era_and_size : list (Z * list string))
    (must_include : list string) (exclude : gset string)
    (require_ports require_run_speed require_charm require_pet_heavy
       require_kiting : bool) : list (Z * list string) :=
  foldl (λ out p,
    if negb (comp_matches_filters p.2 must_include exclude) then out
    else if negb (comp_matches_constraints p.2 require_ports require_run_speed
                    require_charm require_pet_heavy require_kiting) then out
    else out ++ [(p.1, p.2)]) [] defaults_for_era_and_size.

(** ** Scoring helpers *)

Definition get_score (ratings : ratings_t) (era cls cat : string) : Z :=
  default 0%Z (default ∅ (default ∅ (ratings !! era) !! cls) !! cat).

Definition luclin_or_pop (era : string) : bool :=
  bool_decide (era = "luclin") || bool_decide (era = "pop").

Definition melee_penalty (boxing_mode cls era : string) : Z :=
  if negb (bool_decide (boxing_mode = "manual")) then 0
  else if negb (mem cls MELEE_DPS) then 0
  else if bool_decide (cls = "Ranger") && luclin_or_pop era then 0
  else 15.

Definition start_condition_bonus (start cls : string) : Z :=
  if negb (bool_decide (start = "fresh")) then 0
  else if mem cls PET_DPS then 10
  else if bool_decide (cls = "Monk") then 6
  else 0.

(** [sum(1 for c in comp if c in s)]. *)
Definition count_in (s : gset string) (comp : list string) : Z :=
  Z.of_nat (length (filter (λ c, c ∈ s) comp)).

Definition classic_shape (comp : list string) : bool :=
  let comp_set := set_of comp in
  let has_tank_sk_war := nonempty (comp_set ∩ {[ "Warrior"; "Shadowknight" ]}) in
  let has_shaman_bard_cleric :=
    mem "Shaman" comp_set && mem "Bard" comp_set && mem "Cleric" comp_set in
  has_tank_sk_war && has_shaman_bard_cleric && (2 <=? count_in MELEE_DPS comp)%Z.

Definition synergy_bonus (comp : list string) : Z :=
  let comp_set := set_of comp in
  let b1 := if mem "Shadowknight" comp_set && mem "Shaman" comp_set
            then 18%Z else 0%Z in
  let melee_count := count_in MELEE_DPS comp in
  let caster_count := count_in CASTER_DPS comp in
  let b2 := if mem "Bard" comp_set && (2 <=? melee_count)%Z
            then (b1 + 10)%Z else b1 in
  let b3 := if mem "Enchanter" comp_set && (2 <=? caster_count)%Z
            then (b2 + 8)%Z else b2 in
  if bool_decide (length comp = 6%nat) && classic_shape comp
  then (b3 + 28)%Z else b3.

Definition _charm_synergy_bonus (comp : list string) : Z :=
  if negb (bool_decide ("Enchanter" ∈ comp)) then 0%Z
  else
    foldl (λ bonus c,
      if bool_decide (c = "Enchanter") then bonus
      else if mem c {[ "Magician"; "Necromancer" ]} then (bonus + 14)%Z
      else if bool_decide (c = "Beastlord") then (bonus + 6)%Z
      else if mem c {[ "Wizard"; "Druid" ]} then (bonus + 8)%Z
      else bonus) 0%Z comp.

Definition _manual_partner_allowed (cls : string) : bool :=
  if mem cls TANKS then false
  else if mem cls MELEE_DPS then false
  else true.

(** ** Role pools *)

(** [scored.sort(reverse=True, key=lambda x: x[0])] followed by
    [[c for _, c in scored[:n]]]. *)
Definition ranked (n : nat) (scored : list (Z * string)) : list string :=
  (take n (Py.sort_desc fst scored)).*2.

(** The float arithmetic of the partner and support slots, on int scores. *)
Definition blend2 (a : Z) (wa : float) (b : Z) (wb : float) : Z :=
  Py.int_of_float (Py.float_of_int a * wa + Py.float_of_int b * wb)%float.

Definition scaled (a : Z) (w : float) : Z :=
  Py.int_of_float (Py.float_of_int a * w)%float.

Definition add_if (b : bool) (n : Z) (base : Z) : Z :=
  if b then (base + n)%Z else base.

Section role_candidates.
Context (available : list string) (ratings : ratings_t) (era : string).
Context (boxing_mode start : string) (require_charm : bool).

Definition top_by (cat : string) (n : nat) : list string :=
  ranked n
    ((λ c,
       let base := get_score ratings era c cat in
       let base := (base + start_condition_bonus start c)%Z in
       let base :=
         if bool_decide (cat = "dps") then
           let base := (base - melee_penalty boxing_mode c era)%Z in
           add_if (require_charm && bool_decide (c = "Enchanter")) 30 base
         else base in
       (base, c)) <$> available).

(** [[c for c in avail if c in s]], ranked by one category. *)
Definition members_by (s : gset string) (cat : string) (n : nat)
    : list string :=
  ranked n ((λ c, (get_score ratings era c cat, c))
              <$> filter (λ c, c ∈ s) available).

Definition manual_use (use : list string) : list string :=
  if bool_decide (boxing_mode = "manual")
  then filter (λ c, _manual_partner_allowed c = true) use
  else use.

Definition adjusted_dps (c : string) : Z :=
  (get_score ratings era c "dps" - melee_penalty boxing_mode c era)%Z.

Definition charm_partner_key (c : string) : Z :=
  let base := blend2 (adjusted_dps c) 0.85 (get_score ratings era c "healing") 0.15 in
  let base := add_if (mem c SNARERS) 15 base in
  let base := add_if (mem c RUN_SPEED) 6 base in
  let base := add_if (mem c PORTERS) 5 base in
  (base + scaled (start_condition_bonus start c) 0.5)%Z.

Definition pet_partner_key (c : string) : Z :=
  let base := blend2 (adjusted_dps c) 0.85 (get_score ratings era c "healing") 0.15 in
  let base := add_if (mem c SLOWERS) 12 base in
  let base := add_if (mem c PORTERS) 5 base in
  let base := add_if (mem c RUN_SPEED) 6 base in
  let base := add_if (mem c CCERS) 5 base in
  let base := add_if (mem c PET_DPS) 8 base in
  (base + scaled (start_condition_bonus start c) 0.5)%Z.

Definition kite_partner_swarm_key (c : string) : Z :=
  let base := blend2 (get_score ratings era c "healing") 0.60 (adjusted_dps c) 0.40 in
  let base := add_if (mem c RUN_SPEED) 10 base in
  let base := add_if (mem c SLOWERS) 6 base in
  let base := add_if (mem c PORTERS) 4 base in
  (base + scaled (start_condition_bonus start c) 0.4)%Z.

Definition kite_partner_fear_snare_key (c : string) : Z :=
  let base := blend2 (adjusted_dps c) 0.85 (get_score ratings era c "healing") 0.15 in
  let base := add_if (mem c RUN_SPEED) 8 base in
  let base := add_if (mem c PORTERS) 6 base in
  let base := add_if (mem c PET_DPS) 8 base in
  let base := add_if (mem c SLOWERS) 6 base in
  (base + scaled (start_condition_bonus start c) 0.4)%Z.

Definition support_key (c : string) : Z :=
  let f cat := Py.float_of_int (get_score ratings era c cat) in
  let base :=
    Py.int_of_float
      (f "healing" * 0.65 + f "sustain" * 0.45 + f "solo" * 0.35
       + f "kite" * 0.20 + f "charm" * 0.15)%float in
  let base := add_if (mem c SLOWERS) 14 base in
  let base := add_if (mem c CCERS) 8 base in
  let base := add_if (mem c PORTERS) 6 base in
  let base := add_if (mem c RUN_SPEED) 6 base in
  let base := (base + scaled (start_condition_bonus start c) 0.5)%Z in
  let base := add_if (require_charm && bool_decide (c = "Enchanter")) 18 base in
  add_if (bool_decide (boxing_mode = "manual") && mem c MELEE_DPS) (-6) base.

Definition keyed (key : string → Z) (use : list string) (n : nat)
    : list string :=
  ranked n ((λ c, (key c, c)) <$> use).

Definition role_candidates (role : string) : list string :=
  let avail := available in
  if bool_decide (role = "tank") then members_by TANKS "tanking" 6
  else if bool_decide (role = "healer") then members_by HEALERS "healing" 6
  else if bool_decide (role = "slow") then
    let pool := filter (λ c, c ∈ SLOWERS) avail in
    if bool_decide (pool ≠ []) then pool else top_by "solo" 5
  else if bool_decide (role = "cc") then
    let pool := filter (λ c, c ∈ CCERS) avail in
    if bool_decide (pool ≠ []) then pool else top_by "solo" 5
  else if bool_decide (role = "pet_tank") then
    members_by PET_TANKERS "pet_tanking" 6
  else if bool_decide (role = "charm_tank") then
    if negb (bool_decide ("Enchanter" ∈ avail)) then [] else ["Enchanter"]
  else if bool_decide (role = "charm_partner") then
    let use := filter (λ c, c ≠ "Enchanter") avail in
    keyed charm_partner_key (manual_use use) 10
  else if bool_decide (role = "pet_partner") then
    keyed pet_partner_key (manual_use avail) 10
  else if bool_decide (role = "kiter") then members_by KITERS "kite" 8
  else if bool_decide (role = "kiter_swarm") then
    if negb (bool_decide ("Bard" ∈ avail)) then [] else ["Bard"]
  else if bool_decide (role = "kiter_fear_snare") then
    members_by {[ "Necromancer"; "Druid"; "Wizard"; "Ranger" ]} "kite" 6
  else if bool_decide (role = "kite_partner_swarm") then
    keyed kite_partner_swarm_key (manual_use avail) 10
  else if bool_decide (role = "kite_partner_fear_snare") then
    keyed kite_partner_fear_snare_key (manual_use avail) 10
  else if bool_decide (role = "support") then keyed support_key avail 10
  else if bool_decide (role = "dps") then top_by "dps" 10
  else top_by "solo" 6.
End role_candidates.

(** ** Must-include: the slot a required class is added to *)

(** [enumerate(l)]. *)
Definition enumerate {A} (l : list A) : list (nat * A) := imap pair l.

(** [[i for i, s in enumerate(template_slots) if s == name]]. *)
Definition indices_of (name : string) (template_slots : list string)
    : list nat :=
  (filter (λ p, p.2 = name) (enumerate template_slots)).*1.

Definition slot_types_for_class (cls : string) : list string :=
  if mem cls TANKS then ["tank"]
  else if mem cls HEALERS then ["healer"]
  else if mem cls PET_TANKERS then ["pet_tank"; "pet_partner"; "dps"]
  else if mem cls SLOWERS then ["slow"; "cc"; "dps"]
  else if mem cls CCERS then ["cc"; "dps"]
  else if mem cls CHARMERS then ["charm_tank"; "cc"; "dps"]
  else if mem cls KITERS then
    ["kiter_swarm"; "kiter_fear_snare"; "kiter"; "kite_partner_swarm";
     "kite_partner_fear_snare"; "dps"]
  else
    ["dps"; "tank"; "pet_partner"; "charm_partner"; "kite_partner_swarm";
     "kite_partner_fear_snare"; "kite_partner"; "support"; "slow"; "cc";
     "healer"].

(** The first index, in template order, that passes [P] and is not excluded. *)
Definition first_index (P : nat * string → Prop) `{∀ p, Decision (P p)}
    (template_slots : list string) : option nat :=
  (λ r, r.2.1) <$> list_find P (enumerate template_slots).

(** The nested [for slot_type ... for i, s ...: return i] search. *)
Fixpoint first_typed_slot (types : list string) (template_slots : list string)
    (excluded : gset nat) : option nat :=
  match types with
  | [] => None
  | slot_type :: types' =>
      match first_index (λ p, p.2 = slot_type ∧ p.1 ∉ excluded) template_slots with
      | Some i => Some i
      | None => first_typed_slot types' template_slots excluded
      end
  end.

Definition _best_slot_index_for_must_include
    (cls : string) (template_slots : list string) (excluded : gset nat) : nat :=
  match first_typed_slot (slot_types_for_class cls) template_slots excluded with
  | Some i => i
  | None =>
      match first_index (λ p, p.1 ∉ excluded) template_slots with
      | Some i => i
      | None => 0
      end
  end.

(** ** Slot forcing *)

Definition flex_order : list string :=
  ["healer"; "slow"; "cc"; "dps"; "pet_partner"; "charm_partner";
   "kite_partner_swarm"; "kite_partner_fear_snare"; "kite_partner"; "support"].

Definition non_flex : gset string := {[ "tank"; "charm_tank" ]}.

Definition _flex_slot_indices
    (template_slots : list string) (hardcore_required : bool) : list nat :=
  if hardcore_required then indices_of "dps" template_slots
  else if bool_decide (template_slots = ["charm_tank"; "healer"; "dps"])
  then [2; 1]
  else
    let indices :=
      mjoin ((λ slot_name, indices_of slot_name template_slots) <$> flex_order) in
    let others :=
      (filter (λ p, (p.2 ∉ flex_order) ∧ (p.2 ∉ non_flex))
         (enumerate template_slots)).*1 in
    indices ++ others.

(** The [priority_order] of [_slot_priority_indices]. *)
Definition priority_order : list string :=
  ["kiter_swarm"; "kiter_fear_snare"; "kiter"; "pet_tank"; "charm_tank";
   "tank"; "healer"; "slow"; "cc"; "dps"; "pet_partner"; "charm_partner";
   "kite_partner_swarm"; "kite_partner_fear_snare"; "kite_partner"; "support"].

(** The slots named in [priority_order], in that order, then the others. *)
Definition _slot_priority_indices (template_slots : list string) : list nat :=
  let indices :=
    mjoin ((λ slot_name, indices_of slot_name template_slots) <$> priority_order) in
  let others :=
    (filter (λ p, p.2 ∉ priority_order) (enumerate template_slots)).*1 in
  indices ++ others.

Definition _build_requirement_sets
    (available_set : gset string)
    (require_ports require_run_speed require_charm require_pet_heavy
       require_kiting : bool)
    (already_satisfied : gset string) : list (gset string) :=
  let reqs := [] in
  let reqs := if require_charm && negb (nonempty (CHARMERS ∩ already_satisfied))
              then reqs ++ [CHARMERS ∩ available_set] else reqs in
  let reqs := if require_pet_heavy && negb (nonempty (PET_DPS ∩ already_satisfied))
              then reqs ++ [PET_DPS ∩ available_set] else reqs in
  let reqs := if require_kiting && negb (nonempty (KITERS ∩ already_satisfied))
              then reqs ++ [KITERS ∩ available_set] else reqs in
  filter (λ r, r ≠ ∅) reqs.

(** [inter = set(reqs[idxs[0]]); for j in idxs[1:]: inter &= reqs[j]]. *)
Definition inter_of (reqs : list (gset string)) (idxs : list nat)
    : gset string :=
  match idxs with
  | [] => ∅
  | j :: js => foldl (λ inter j', inter ∩ (reqs !!! j')) (reqs !!! j) js
  end.

(** One pass of the inner loop body over a combination [idxs]. *)
Definition consider (reqs : list (gset string))
    (best : gset string * list nat) (idxs : list nat)
    : gset string * list nat :=
  let inter := inter_of reqs idxs in
  if negb (nonempty inter) then best
  else if bool_decide (length best.2 < length idxs) then (inter, idxs)
  else if bool_decide (length idxs = length best.2) && bool_decide (best.2 ≠ [])
  then (if bool_decide (size inter < size best.1) then (inter, idxs) else best)
  else best.

(** [for k in [3, 2, 1]: ...; if best_idxs: return]. *)
Fixpoint scan_sizes (reqs : list (gset string)) (ks : list nat)
    (best : gset string * list nat) : gset string * list nat :=
  match ks with
  | [] => best
  | k :: ks' =>
      let best' :=
        foldl (consider reqs) best (Py.combinations k (seq 0 (length reqs))) in
      if bool_decide (best'.2 ≠ []) then best'
      else scan_sizes reqs ks' best'
  end.

Definition _best_intersection_group (reqs : list (gset string))
    : gset string * list nat :=
  scan_sizes reqs [3; 2; 1]%nat (∅, []).

(** [for i in sorted(idxs, reverse=True): del reqs[i]]. *)
Definition delete_all (idxs : list nat) (reqs : list (gset string))
    : list (gset string) :=
  foldl (λ reqs i, delete i reqs) reqs (Py.sort_desc Z.of_nat idxs).

(** The [while reqs and slot_cursor < len(slot_order)] loop; the argument
    [slots] is [slot_order[slot_cursor:]]. *)
Fixpoint force_loop (reqs : list (gset string)) (slots : list nat)
    (forced : gmap nat (gset string)) : gmap nat (gset string) :=
  match slots with
  | [] => forced
  | slot_idx :: slots' =>
      if bool_decide (reqs = []) then forced
      else
        let '(pool, idxs) := _best_intersection_group reqs in
        if bool_decide (idxs = []) || negb (nonempty pool) then forced
        else force_loop (delete_all idxs reqs) slots' (<[slot_idx := pool]> forced)
  end.

Definition force_constraints_into_slots
    (template_slots : list string) (available : list string)
    (require_ports require_run_speed require_charm require_pet_heavy
       require_kiting : bool)
    (already_satisfied : gset string) (hardcore_required : bool)
    : gmap nat (gset string) :=
  let available_set := set_of available in
  let satisfied := already_satisfied in
  let reqs :=
    _build_requirement_sets available_set require_ports require_run_speed
      require_charm require_pet_heavy require_kiting satisfied in
  let forced : gmap nat (gset string) := ∅ in
  if bool_decide (reqs = []) then forced
  else
    let slot_order := _flex_slot_indices template_slots hardcore_required in
    if bool_decide (slot_order = []) then forced
    else force_loop reqs slot_order forced.

(** ** Slot-aware scoring *)

Definition normalize_slot (slot : string) : string :=
  let slot := if mem slot {[ "kiter_swarm"; "kiter_fear_snare" ]}
              then "kiter" else slot in
  if mem slot {[ "kite_partner_swarm"; "kite_partner_fear_snare" ]}
  then "kite_partner" else slot.

(** [next((comp[i] for i, s in enumerate(template_slots) if s == "healer"),
    None)]: [None] when [comp[i]] raises [IndexError], [Some None] when the
    template has no healer slot. *)
Definition main_healer_of (comp template_slots : list string)
    : option (option string) :=
  match first_index (λ p, p.2 = "healer") template_slots with
  | None => Some None
  | Some i => match comp !! i with
              | Some c => Some (Some c)
              | None => None
              end
  end.

Definition _slot_value
    (ratings : ratings_t) (era cls slot boxing_mode : string)
    (comp template_slots : option (list string))
    : option (float * list (string * float)) :=
  let slot := normalize_slot slot in
  let rating cat := Py.float_of_int (get_score ratings era cls cat) in
  let dps := Py.float_of_int
               (get_score ratings era cls "dps" - melee_penalty boxing_mode cls era) in
  let healing := rating "healing" in
  let tanking := rating "tanking" in
  let pet_tanking := rating "pet_tanking" in
  let sustain := rating "sustain" in
  let kite := rating "kite" in
  let charm := rating "charm" in
  let by_slot : float * list (string * float) :=
    if bool_decide (slot = "tank") then
      ((tanking * 0.45 + sustain * 0.30 + dps * 0.25)%float,
       [("tanking", tanking); ("sustain", sustain); ("dps", dps)])
    else if bool_decide (slot = "pet_tank") then
      ((pet_tanking * 1.00 + sustain * 0.15)%float,
       [("pet_tanking", pet_tanking); ("sustain", sustain)])
    else if bool_decide (slot = "kiter") then
      ((kite * 1.00 + sustain * 0.25)%float,
       [("kite", kite); ("sustain", sustain)])
    else if bool_decide (slot = "charm_tank") then
      ((charm * 1.00 + sustain * 0.20)%float,
       [("charm", charm); ("sustain", sustain)])
    else if bool_decide (slot = "healer") then
      ((healing * 1.00)%float, [("healing", healing)])
    else if mem slot {[ "kite_partner"; "pet_partner"; "charm_partner" ]} then
      ((healing * 0.50 + dps * 0.50)%float,
       [("healing", healing); ("dps", dps)])
    else if mem slot {[ "slow"; "cc"; "support" ]} then
      ((healing * 0.35 + dps * 0.35 + charm * 0.20 + sustain * 0.15)%float,
       [("healing", healing); ("dps", dps); ("charm", charm);
        ("sustain", sustain)])
    else ((dps * 1.00)%float, [("dps", dps)]) in
  match comp, template_slots with
  | Some comp, Some template_slots =>
      main_healer ← main_healer_of comp template_slots;
      if negb (bool_decide (slot = "healer")) && mem cls HEALERS
         && bool_decide (main_healer ≠ None)
         && bool_decide (Some cls ≠ main_healer)
      then
        let sec_heal := (healing * 0.15)%float in
        Some ((dps + sec_heal)%float,
              [("dps", dps); ("healing", healing);
               ("healing_secondary_bonus", sec_heal)])
      else Some by_slot
  | _, _ => Some by_slot
  end.

Record slot_breakdown := {
  sb_slot : string;
  sb_class : string;
  sb_value : float;
  sb_breakdown : list (string * float);
  sb_start_bonus : Z;
}.

Record slow_logic_t := {
  sl_applied : bool;
  sl_has_slow : bool;
  sl_bonus_or_penalty : Z;
  sl_note : string;
}.

(** The explanation dictionary.  Its [summary_lines] (display text rendered
    from the fields below) are left to the presentation layer. *)
Record detail := {
  d_era : string;
  d_boxing_mode : string;
  d_start : string;
  d_require_charm : bool;
  d_charm_bonus_applied : Z;
  d_charm_synergy : Z;
  d_template_slots : list string;
  d_slot_breakdowns : list slot_breakdown;
  d_slow_logic : slow_logic_t;
  d_synergy_bonus : Z;
  d_start_bonus_total : Z;
  d_tank_count : Z;
  d_tank_stack_penalty : Z;
  d_charm_snare_bonus : Z;
  d_classic_double_melee_bonus : Z;
  d_hardcore_warrior_bonus : Z;
  d_constraint_already_met_bonus : Z;
  d_total : Z;
}.

(** The variables the per-slot loop of [score_comp_explain] updates. *)
Record slot_acc := {
  a_slot_breakdowns : list slot_breakdown;
  a_slot_total : float;
  a_start_bonus_total : Z;
  a_charm_bonus_applied : Z;
  a_hardcore_warrior_bonus : Z;
  a_best_tank_metric_name : string;
  a_best_tank_value : float;
  a_best_heal_value : float;
}.

Definition slot_acc0 : slot_acc :=
  {| a_slot_breakdowns := []; a_slot_total := 0%float;
     a_start_bonus_total := 0; a_charm_bonus_applied := 0;
     a_hardcore_warrior_bonus := 0; a_best_tank_metric_name := "tanking";
     a_best_tank_value := 0%float; a_best_heal_value := 0%float |}.

Section score_comp_explain.
Context (comp : list string) (ratings : ratings_t).
Context (era boxing_mode start : string) (require_charm : bool).
Context (template_slots : list string).
Context (hardcore_required require_run_speed require_ports : bool).

(** One iteration of [for slot, cls in zip(template_slots, comp)]. *)
Definition score_slot (a : slot_acc) (slot cls : string) : option slot_acc :=
  '(base_val, breakdown) ←
    _slot_value ratings era cls slot boxing_mode (Some comp) (Some template_slots);
  let charm_hit := require_charm && bool_decide (cls = "Enchanter") in
  let base_val := if charm_hit then (base_val + Py.float_of_int 30)%float
                  else base_val in
  let sb := start_condition_bonus start cls in
  let is_tank := bool_decide (slot = "tank") in
  let is_pet_tank := bool_decide (slot = "pet_tank") in
  let tank_name := if is_tank then "tanking" else a_best_tank_metric_name a in
  let tank_val :=
    if is_tank
    then Py.fmax (a_best_tank_value a)
           (Py.float_of_int (get_score ratings era cls "tanking"))
    else a_best_tank_value a in
  Some {|
    a_slot_breakdowns :=
      a_slot_breakdowns a ++
        [{| sb_slot := slot; sb_class := cls; sb_value := base_val;
            sb_breakdown := breakdown; sb_start_bonus := sb |}];
    a_slot_total := (a_slot_total a + base_val)%float;
    a_start_bonus_total := (a_start_bonus_total a + sb)%Z;
    a_charm_bonus_applied :=
      if charm_hit then 30%Z else a_charm_bonus_applied a;
    a_hardcore_warrior_bonus :=
      if hardcore_required && is_tank && bool_decide (cls = "Warrior")
      then 18%Z else a_hardcore_warrior_bonus a;
    a_best_tank_metric_name :=
      if is_pet_tank then "pet_tanking" else tank_name;
    a_best_tank_value :=
      if is_pet_tank
      then Py.fmax tank_val
             (Py.float_of_int (get_score ratings era cls "pet_tanking"))
      else tank_val;
    a_best_heal_value :=
      if bool_decide (slot = "healer")
      then Py.fmax (a_best_heal_value a)
             (Py.float_of_int (get_score ratings era cls "healing"))
      else a_best_heal_value a;
  |}.

Fixpoint score_slots (a : slot_acc) (pairs : list (string * string))
    : option slot_acc :=
  match pairs with
  | [] => Some a
  | (slot, cls) :: pairs' => a' ← score_slot a slot cls; score_slots a' pairs'
  end.

Definition constraint_already_met : Z :=
  let comp_set := set_of comp in
  let b := add_if (require_run_speed
                   && nonempty (comp_set ∩ {[ "Bard"; "Shaman" ]})) 28 0 in
  add_if (require_ports && nonempty (comp_set ∩ PORTERS)) 15 b.

Definition classic_double_melee : Z :=
  let comp_set := set_of comp in
  if bool_decide (length comp = 6%nat)
     && (bool_decide (boxing_mode = "assisted")
         || bool_decide (boxing_mode = "macroquest"))
     && negb (bool_decide (start = "fresh"))
  then
    if classic_shape comp && negb (mem "Enchanter" comp_set) then 22%Z else 0%Z
  else 0%Z.

Definition charm_snare : Z :=
  if (bool_decide (length comp = 2%nat) || bool_decide (length comp = 3%nat))
     && (bool_decide ("Enchanter" ∈ comp) || require_charm)
     && nonempty (set_of comp ∩ SNARERS)
  then 18%Z else 0%Z.

Definition slow_logic : slow_logic_t :=
  let has_slow := bool_decide (Exists (λ c, c ∈ SLOWERS) comp) in
  if bool_decide (length comp = 2%nat)
     && bool_decide (template_slots = ["tank"; "healer"])
  then
    if has_slow
    then {| sl_applied := true; sl_has_slow := has_slow;
            sl_bonus_or_penalty := 20;
            sl_note := "2-box tank+healer: slow is core, bonus applied." |}
    else {| sl_applied := true; sl_has_slow := has_slow;
            sl_bonus_or_penalty := -25;
            sl_note := "2-box tank+healer: no slow, penalty applied." |}
  else {| sl_applied := false; sl_has_slow := false;
          sl_bonus_or_penalty := 0; sl_note := "" |}.

Definition tank_stacking (tank_count : Z) : Z :=
  if (2 <=? tank_count)%Z then (-40 * (tank_count - 1))%Z else 0%Z.

(** The float expression handed to [int(...)], in source order. *)
Definition total_sum
    (slot_total : float)
    (syn_bonus charm_synergy classic_double_melee_bonus hardcore_warrior_bonus
       constraint_already_met_bonus start_bonus_total slow tank_stack_penalty
       charm_snare_bonus : Z) : float :=
  (slot_total
   + Py.float_of_int syn_bonus
   + Py.float_of_int charm_synergy
   + Py.float_of_int classic_double_melee_bonus
   + Py.float_of_int hardcore_warrior_bonus
   + Py.float_of_int constraint_already_met_bonus
   + Py.float_of_int start_bonus_total * 0.4
   + Py.float_of_int slow
   + Py.float_of_int tank_stack_penalty
   + Py.float_of_int charm_snare_bonus)%float.

Definition score_comp_explain : option (Z * detail) :=
  let tank_count := count_in TANKS comp in
  a ← score_slots slot_acc0 (zip template_slots comp);
  let syn_bonus := synergy_bonus comp in
  let charm_synergy := _charm_synergy_bonus comp in
  let constraint_already_met_bonus := constraint_already_met in
  let classic_double_melee_bonus := classic_double_melee in
  let charm_snare_bonus := charm_snare in
  let slow := slow_logic in
  let tank_stack_penalty := tank_stacking tank_count in
  let total :=
    Py.int_of_float
      (total_sum (a_slot_total a) syn_bonus charm_synergy
         classic_double_melee_bonus (a_hardcore_warrior_bonus a)
         constraint_already_met_bonus (a_start_bonus_total a)
         (sl_bonus_or_penalty slow) tank_stack_penalty charm_snare_bonus) in
  Some (total,
    {| d_era := era; d_boxing_mode := boxing_mode; d_start := start;
       d_require_charm := require_charm;
       d_charm_bonus_applied := a_charm_bonus_applied a;
       d_charm_synergy := charm_synergy;
       d_template_slots := template_slots;
       d_slot_breakdowns := a_slot_breakdowns a;
       d_slow_logic := slow;
       d_synergy_bonus := syn_bonus;
       d_start_bonus_total := a_start_bonus_total a;
       d_tank_count := tank_count;
       d_tank_stack_penalty := tank_stack_penalty;
       d_charm_snare_bonus := charm_snare_bonus;
       d_classic_double_melee_bonus := classic_double_melee_bonus;
       d_hardcore_warrior_bonus := a_hardcore_warrior_bonus a;
       d_constraint_already_met_bonus := constraint_already_met_bonus;
       d_total := total |}).
End score_comp_explain.

(** ** Enumeration and ranking *)

(** The keyword arguments of [generate_scored_recommendations]. *)
Record request := {
  ratings : ratings_t;
  era : string;
  available : list string;
  template_slots : list string;
  boxing_mode : string;
  start : string;
  must_include : list string;
  exclude : gset string;
  require_ports : bool;
  require_run_speed : bool;
  require_charm : bool;
  require_pet_heavy : bool;
  require_kiting : bool;
  hardcore_required : bool;
  limit : Z;
  return_explain : bool;
}.

(** A returned tuple: [(score, comp)] or [(score, comp, detail)]. *)
Definition scored := (Z * list string * option detail)%type.

Definition comp_of (x : scored) : list string := x.1.2.
Definition score_of (x : scored) : Z := x.1.1.

(** [Counter(comp)]. *)
Definition Counter (comp : list string) : gmap string nat :=
  foldl (λ m c, <[c := S (default 0%nat (m !! c))]> m) ∅ comp.

Section generate.
Context (r : request).

Definition available_set : gset string := set_of (available r).

Definition already_satisfied : gset string :=
  let satisfied : gset string :=
    if hardcore_required r
    then set_of (filter (λ c, c ∈ available_set) ["Cleric"; "Shaman"; "Bard"])
    else ∅ in
  if bool_decide ("charm_tank" ∈ template_slots r) && require_charm r
  then satisfied ∪ (CHARMERS ∩ available_set)
  else satisfied.

Definition forced_slots : gmap nat (gset string) :=
  force_constraints_into_slots (template_slots r) (available r)
    (require_ports r) (require_run_speed r) (require_charm r)
    (require_pet_heavy r) (require_kiting r) already_satisfied
    (hardcore_required r).

(** [if slot in template_slots and cls in available_set: for i, s in
    enumerate(template_slots): if s == slot: forced[i] = [cls]; break]. *)
Definition hardcore_lock (slot cls : string)
    (forced : gmap nat (list string)) : gmap nat (list string) :=
  if bool_decide (slot ∈ template_slots r) && mem cls available_set then
    match first_index (λ p, p.2 = slot) (template_slots r) with
    | Some i => <[i := [cls]]> forced
    | None => forced
    end
  else forced.

Definition hardcore_forced : gmap nat (list string) :=
  if hardcore_required r then
    hardcore_lock "cc" "Bard"
      (hardcore_lock "slow" "Shaman" (hardcore_lock "healer" "Cleric" ∅))
  else ∅.

Definition initial_pool (i : nat) (slot : string) : list string :=
  match hardcore_forced !! i with
  | Some pool => pool
  | None =>
      match forced_slots !! i with
      | Some pool => Py.sorted (elements pool)
      | None =>
          role_candidates (available r) (ratings r) (era r) (boxing_mode r)
            (start r) (require_charm r) slot
      end
  end.

Definition initial_pools : list (list string) :=
  imap initial_pool (template_slots r).

(** One iteration of [for cls in must_include]. *)
Definition inject (slot_pools : list (list string)) (cls : string)
    : list (list string) :=
  if negb (mem cls available_set) || mem cls (exclude r) then slot_pools
  else if bool_decide (Exists (λ pool, cls ∈ pool) slot_pools) then slot_pools
  else
    let idx := _best_slot_index_for_must_include cls (template_slots r)
                 (dom hardcore_forced) in
    if bool_decide (idx < length slot_pools) then
      alter (λ pool, if bool_decide (cls ∈ pool) then pool else pool ++ [cls])
        idx slot_pools
    else slot_pools.

Definition slot_pools : list (list string) :=
  foldl inject initial_pools (must_include r).

Definition allow_duplicate_dps : bool :=
  bool_decide (2 ≤ length (filter (λ s, s = "dps") (template_slots r)))%nat.

Definition melee_duplicate (cls : string) : bool :=
  mem cls MELEE_DPS
  && negb (bool_decide (cls = "Ranger") && luclin_or_pop (era r)).

(** The duplicate check at the head of the loop body: [true] when the
    comp is skipped ([continue]). *)
Definition skip_duplicates (comp : list string) : bool :=
  if bool_decide (length comp ≠ size (set_of comp)) then
    if negb allow_duplicate_dps then true
    else
      let counts := map_to_list (Counter comp) in
      if existsb (λ p, bool_decide (p.1 = "Enchanter")
                       && bool_decide (1 < p.2)) counts
      then true
      else if bool_decide (boxing_mode r = "manual") then
        existsb (λ p, bool_decide (1 < p.2) && melee_duplicate p.1) counts
      else false
  else false.

Definition score_request (comp : list string) : option (Z * detail) :=
  score_comp_explain comp (ratings r) (era r) (boxing_mode r) (start r)
    (require_charm r) (template_slots r) (hardcore_required r)
    (require_run_speed r) (require_ports r).

(** The body of [for picks in product(...)], on the loop state
    [(results, seen)]. *)
Definition visit (st : list scored * gset (list string))
    (picks : list string) : option (list scored * gset (list string)) :=
  let comp := picks in
  if skip_duplicates comp then Some st
  else if bool_decide (comp ∈ st.2) then Some st
  else
    let seen := {[ comp ]} ∪ st.2 in
    if negb (comp_matches_filters comp (must_include r) (exclude r))
    then Some (st.1, seen)
    else if negb (comp_matches_constraints comp (require_ports r)
                    (require_run_speed r) (require_charm r)
                    (require_pet_heavy r) (require_kiting r))
    then Some (st.1, seen)
    else
      '(score, d) ← score_request comp;
      Some (st.1 ++ [(score, comp, if return_explain r then Some d else None)],
            seen).

Fixpoint visit_all (st : list scored * gset (list string))
    (l : list (list string)) : option (list scored * gset (list string)) :=
  match l with
  | [] => Some st
  | picks :: l' => st' ← visit st picks; visit_all st' l'
  end.

Definition generate_scored_recommendations : option (list scored) :=
  st ← visit_all ([], ∅) (Py.product slot_pools);
  Some (Py.slice_to (Py.sort_desc score_of st.1) (limit r)).
End generate.

(** ** Templates ([app/templates.py]) *)

Definition TEMPLATES : gmap Z (list string) :=
  list_to_map
    [ (2%Z, ["tank"; "healer"]);
      (3%Z, ["tank"; "healer"; "dps"]);
      (4%Z, ["tank"; "healer"; "slow"; "dps"]);
      (5%Z, ["tank"; "healer"; "slow"; "dps"; "dps"]);
      (6%Z, ["tank"; "healer"; "slow"; "cc"; "dps"; "dps"]) ].

Definition LEVELING_6BOX_TEMPLATE : list string :=
  ["tank"; "healer"; "cc"; "dps"; "dps"; "dps"].

Definition HARDCORE_TEMPLATES : gmap Z (list string) :=
  list_to_map
    [ (4%Z, ["tank"; "healer"; "slow"; "cc"]);
      (5%Z, ["tank"; "healer"; "slow"; "cc"; "dps"]);
      (6%Z, ["tank"; "healer"; "slow"; "cc"; "dps"; "dps"]) ].

(** [None] is the [KeyError] of [TEMPLATES[box_size]]. *)
Definition get_template (box_size : Z) (focus : string) : option (list string) :=
  if bool_decide (focus = "solo_raid") && (4 <=? box_size)%Z
     && bool_decide (is_Some (HARDCORE_TEMPLATES !! box_size))
  then HARDCORE_TEMPLATES !! box_size
  else if negb (box_size =? 6)%Z then TEMPLATES !! box_size
  else if bool_decide (focus = "leveling") then Some LEVELING_6BOX_TEMPLATE
  else TEMPLATES !! 6%Z.

(** A table for one era from its rows, as [load_class_ratings] builds it. *)
Definition era_table (rows : list (string * list (string * Z)))
    : gmap string (gmap string Z) :=
  list_to_map (prod_map id list_to_map <$> rows).

(** * Statements: auxiliary definitions and example inputs *)

(** Descending order of keys. *)
Definition desc {A : Type} (key : A → Z) (a b : A) : Prop := (key b ≤ key a)%Z.

(** A class is rated in an era when the rating table has a row for it. *)
Definition rated (ratings : ratings_t) (era c : string) : Prop :=
  ∃ by_class, ratings !! era = Some by_class ∧ is_Some (by_class !! c).

(** The additions and removals of a ruleset for an era. *)
Definition ruleset_additions (rs : ruleset) (era : string) : list string :=
  default [] (default ∅ (add_classes_by_era rs) !! era).

Definition ruleset_removals (rs : ruleset) (era : string) : list string :=
  default [] (default ∅ (remove_classes_by_era rs) !! era).

(** The ranking key as the specification words it: the [dps] rating, less
    the manual-boxing melee penalty, plus the start-condition bonus. *)
Definition dps_key_spec (ratings : ratings_t) (era boxing_mode start c : string)
    : Z :=
  (get_score ratings era c "dps" - melee_penalty boxing_mode c era
   + start_condition_bonus start c)%Z.

(** The key the code ranks by: the same, with 30 more for [Enchanter] when
    charm is required. *)
Definition dps_key (ratings : ratings_t) (era boxing_mode start : string)
    (require_charm : bool) (c : string) : Z :=
  (dps_key_spec ratings era boxing_mode start c
   + if require_charm && bool_decide (c = "Enchanter") then 30 else 0)%Z.

(** Two casters, the Wizard the better damage dealer. *)
Definition ratings_casters : ratings_t :=
  {[ "classic" := {[ "Wizard" := {[ "dps" := 50%Z ]};
                     "Enchanter" := {[ "dps" := 40%Z ]} ]} ]}.

(** The charm bonus added to a slot value inside the loop. *)
Definition charm_adjust (require_charm : bool) (cls : string) (v : float)
    : float :=
  if require_charm && bool_decide (cls = "Enchanter")
  then (v + Py.float_of_int 30)%float else v.

(** What one recorded breakdown entry holds, relative to [_slot_value]. *)
Definition breakdown_ok (comp : list string) (ratings : ratings_t)
    (era boxing_mode start : string) (require_charm : bool)
    (template : list string) (b : slot_breakdown) : Prop :=
  ∃ v, _slot_value ratings era (sb_class b) (sb_slot b) boxing_mode
         (Some comp) (Some template) = Some (v, sb_breakdown b)
       ∧ sb_value b = charm_adjust require_charm (sb_class b) v
       ∧ sb_start_bonus b = start_condition_bonus start (sb_class b).

Definition is_tank_warrior (p : string * string) : bool :=
  bool_decide (p.1 = "tank") && bool_decide (p.2 = "Warrior").

(** A float strictly below zero that is not a whole number. *)
Definition negative_fraction (f : float) : Prop :=
  ((Py.float_num_den f).1 < 0 ∧
   (Py.float_num_den f).1 `mod` (Py.float_num_den f).2 ≠ 0)%Z.

(** The sum of the per-slot values recorded in the explanation and of the
    whole-comp adjustments, added as floats in the order of the source. *)
Definition comp_sum (comp : list string) (boxing_mode start : string)
    (require_charm : bool) (template_slots : list string)
    (hardcore_required require_run_speed require_ports : bool)
    (d : detail) : float :=
  total_sum
    (foldl (λ t b, (t + sb_value b)%float) 0%float (d_slot_breakdowns d))
    (synergy_bonus comp)
    (_charm_synergy_bonus comp)
    (classic_double_melee comp boxing_mode start)
    (if hardcore_required && existsb is_tank_warrior (zip template_slots comp)
     then 18 else 0)
    (constraint_already_met comp require_run_speed require_ports)
    (foldl (λ t p, (t + start_condition_bonus start p.2)%Z) 0%Z
       (zip template_slots comp))
    (sl_bonus_or_penalty (slow_logic comp template_slots))
    (tank_stacking (count_in TANKS comp))
    (charm_snare comp require_charm).

(** A rating table with complete rows, in which the tank brings nothing but
    one point of [dps]. *)
Definition ratings_weak_tank : ratings_t :=
  {[ "classic" := era_table [
       ("Warrior", [("dps", 1); ("healing", 0); ("tanking", 0);
                    ("pet_tanking", 0); ("solo", 0); ("sustain", 0);
                    ("kite", 0); ("charm", 0)]);
       ("Cleric", [("dps", 0); ("healing", 0); ("tanking", 0);
                   ("pet_tanking", 0); ("solo", 0); ("sustain", 0);
                   ("kite", 0); ("charm", 0)]) ]%Z ]}.

(** What every returned tuple went through. *)
Definition accepted (r : request) (x : scored) : Prop :=
  comp_of x ∈ Py.product (slot_pools r)
  ∧ skip_duplicates r (comp_of x) = false
  ∧ comp_matches_filters (comp_of x) (must_include r) (exclude r) = true
  ∧ comp_matches_constraints (comp_of x) (require_ports r)
      (require_run_speed r) (require_charm r) (require_pet_heavy r)
      (require_kiting r) = true
  ∧ ∃ d, score_request r (comp_of x) = Some (score_of x, d).

(** The charm duo of an era without Enchanter. *)
Definition request_no_enchanter : request :=
  {| ratings := ratings_weak_tank; era := "classic";
     available := ["Cleric"; "Warrior"];
     template_slots := ["charm_tank"; "charm_partner"];
     boxing_mode := "manual"; start := "fresh"; must_include := [];
     exclude := ∅; require_ports := false; require_run_speed := false;
     require_charm := true; require_pet_heavy := false;
     require_kiting := false; hardcore_required := false; limit := 15;
     return_explain := true |}.

(** [HARDCORE_TEMPLATES[6]]. *)
Definition solo_raid_6 : list string :=
  ["tank"; "healer"; "slow"; "cc"; "dps"; "dps"].

(** A complete row of the rating table. *)
Definition rating_row
    (dps healing tanking pet_tanking solo sustain kite charm : Z)
    : list (string * Z) :=
  [("dps", dps); ("healing", healing); ("tanking", tanking);
   ("pet_tanking", pet_tanking); ("solo", solo); ("sustain", sustain);
   ("kite", kite); ("charm", charm)].

(** A small rating table with complete rows. *)
Definition ratings_ex : ratings_t :=
  {[ "classic" := era_table [
       ("Bard", rating_row 35 20 20 0 50 40 80 30);
       ("Cleric", rating_row 10 95 30 0 20 60 0 0);
       ("Magician", rating_row 75 0 0 85 70 50 30 0);
       ("Paladin", rating_row 30 40 90 0 40 50 0 0);
       ("Shaman", rating_row 30 70 20 0 50 60 20 0);
       ("Warrior", rating_row 30 0 90 0 20 50 0 0);
       ("Wizard", rating_row 90 0 0 0 50 30 70 0) ]%Z ]}.

(** A hardcore 6-box request with two tanks available. *)
Definition request_solo_raid : request :=
  {| ratings := ratings_ex; era := "classic";
     available := ["Bard"; "Cleric"; "Paladin"; "Shaman"; "Warrior"; "Wizard"];
     template_slots := solo_raid_6;
     boxing_mode := "manual"; start := "assisted"; must_include := [];
     exclude := ∅; require_ports := false; require_run_speed := false;
     require_charm := false; require_pet_heavy := false;
     require_kiting := false; hardcore_required := true; limit := 15;
     return_explain := false |}.

(** A balanced 6-box request in an era with one healer class. *)
Definition request_one_healer : request :=
  {| ratings := ratings_ex; era := "classic";
     available := ["Bard"; "Magician"; "Shaman"; "Warrior"; "Wizard"];
     template_slots := ["tank"; "healer"; "slow"; "cc"; "dps"; "dps"];
     boxing_mode := "manual"; start := "assisted"; must_include := [];
     exclude := ∅; require_ports := false; require_run_speed := false;
     require_charm := false; require_pet_heavy := false;
     require_kiting := false; hardcore_required := false; limit := 15;
     return_explain := false |}.

(** How often a class occurs in a comp. *)
Definition occurrences (c : string) (comp : list string) : nat :=
  length (filter (λ c', c' = c) comp).

(** ** Definitions for the further properties *)

(** A default comp is kept when it passes both predicates. *)
Definition default_kept (must_include : list string) (exclude : gset string)
    (require_ports require_run_speed require_charm require_pet_heavy
       require_kiting : bool) (p : Z * list string) : Prop :=
  comp_matches_filters p.2 must_include exclude = true
  ∧ comp_matches_constraints p.2 require_ports require_run_speed
      require_charm require_pet_heavy require_kiting = true.

(** The indices of the chosen group are positions of [reqs]. *)
Definition in_range (n : nat) (best : gset string * list nat) : Prop :=
  Forall (λ j, j < n) best.2.

(** A constraint that slot forcing acts on: it is required, a class that
    meets it is available, and no class that meets it is already in every
    comp. *)
Definition active_requirement (available : list string)
    (require_charm require_pet_heavy require_kiting : bool)
    (already_satisfied : gset string) : Prop :=
  (require_charm = true ∧ CHARMERS ∩ already_satisfied = ∅
   ∧ ∃ c, c ∈ CHARMERS ∧ c ∈ available)
  ∨ (require_pet_heavy = true ∧ PET_DPS ∩ already_satisfied = ∅
     ∧ ∃ c, c ∈ PET_DPS ∧ c ∈ available)
  ∨ (require_kiting = true ∧ KITERS ∩ already_satisfied = ∅
     ∧ ∃ c, c ∈ KITERS ∧ c ∈ available).

(** What a tuple of the result list records about its comp. *)
Definition scored_by (r : request) (x : scored) : Prop :=
  ∃ d, score_request r (comp_of x) = Some (score_of x, d)
       ∧ x.2 = if return_explain r then Some d else None.

(** The loop invariant of the enumeration: no comp twice, every recorded
    comp seen, every tuple scored by the scorer. *)
Definition loop_inv (r : request) (st : list scored * gset (list string))
    : Prop :=
  NoDup (comp_of <$> st.1)
  ∧ (∀ x, x ∈ st.1 → comp_of x ∈ st.2)
  ∧ Forall (scored_by r) st.1.

(** The same request with another [limit]. *)
Definition with_limit (r : request) (n : Z) : request :=
  {| ratings := ratings r; era := era r; available := available r;
     template_slots := template_slots r; boxing_mode := boxing_mode r;
     start := start r; must_include := must_include r; exclude := exclude r;
     require_ports := require_ports r;
     require_run_speed := require_run_speed r;
     require_charm := require_charm r;
     require_pet_heavy := require_pet_heavy r;
     require_kiting := require_kiting r;
     hardcore_required := hardcore_required r; limit := n;
     return_explain := return_explain r |}.

(** The same request with another [return_explain]. *)
Definition with_explain (r : request) (b : bool) : request :=
  {| ratings := ratings r; era := era r; available := available r;
     template_slots := template_slots r; boxing_mode := boxing_mode r;
     start := start r; must_include := must_include r; exclude := exclude r;
     require_ports := require_ports r;
     require_run_speed := require_run_speed r;
     require_charm := require_charm r;
     require_pet_heavy := require_pet_heavy r;
     require_kiting := require_kiting r;
     hardcore_required := hardcore_required r; limit := limit r;
     return_explain := b |}.

(** The score and the comp of a returned tuple. *)
Definition strip (x : scored) : Z * list string := (score_of x, comp_of x).

(** The pairs of slot and class that the hardcore branch locks. *)
Definition hardcore_core : list (string * string) :=
  [("healer", "Cleric"); ("slow", "Shaman"); ("cc", "Bard")].

(** A combination of picks that the loop body keeps: it passes the
    duplicate check, the filters and the constraints. *)
Definition passes (r : request) (picks : list string) : Prop :=
  skip_duplicates r picks = false
  ∧ comp_matches_filters picks (must_include r) (exclude r) = true
  ∧ comp_matches_constraints picks (require_ports r) (require_run_speed r)
      (require_charm r) (require_pet_heavy r) (require_kiting r) = true.

(** Every seen comp that passes the filters and the constraints is
    recorded. *)
Definition seen_inv (r : request) (st : list scored * gset (list string))
    : Prop :=
  ∀ c, c ∈ st.2 →
    comp_matches_filters c (must_include r) (exclude r) = true →
    comp_matches_constraints c (require_ports r) (require_run_speed r)
      (require_charm r) (require_pet_heavy r) (require_kiting r) = true →
    c ∈ comp_of <$> st.1.

(** [pool] holds every available class of the set [s], each once, best
    rated in [cat] first. *)
Definition all_ranked (available : list string) (ratings : ratings_t)
    (era cat : string) (s : gset string) (pool : list string) : Prop :=
  pool ≡ₚ filter (λ c, c ∈ s) available
  ∧ Sorted (desc (λ c, get_score ratings era c cat)) pool.

(** The bonus one class adds to the charm synergy. *)
Definition charm_synergy_of (c : string) : Z :=
  if bool_decide (c = "Enchanter") then 0
  else if mem c {[ "Magician"; "Necromancer" ]} then 14
  else if bool_decide (c = "Beastlord") then 6
  else if mem c {[ "Wizard"; "Druid" ]} then 8
  else 0.

(** The same request with the required classes listed as [l]. *)
Definition with_must_include (r : request) (l : list string) : request :=
  {| ratings := ratings r; era := era r; available := available r;
     template_slots := template_slots r; boxing_mode := boxing_mode r;
     start := start r; must_include := l; exclude := exclude r;
     require_ports := require_ports r;
     require_run_speed := require_run_speed r;
     require_charm := require_charm r;
     require_pet_heavy := require_pet_heavy r;
     require_kiting := require_kiting r;
     hardcore_required := hardcore_required r; limit := limit r;
     return_explain := return_explain r |}.

(** A tuple the enumeration records: its comp is a combination of the slot
    pools that passes, with the scorer's score and explanation. *)
Definition kept (r : request) (x : scored) : Prop :=
  comp_of x ∈ Py.product (slot_pools r) ∧ passes r (comp_of x) ∧ scored_by r x.

(** Slot pools that hold the same classes, slot by slot. *)
Definition pools_equiv (pools pools' : list (list string)) : Prop :=
  Forall2 (≡ₚ) pools pools'.

(** The guard under which [inject] appends the class. *)
Definition inject_cond (r : request) (pools : list (list string))
    (c : string) : bool :=
  mem c (available_set r) && negb (mem c (exclude r))
  && negb (bool_decide (Exists (λ pool, c ∈ pool) pools))
  && bool_decide
       (_best_slot_index_for_must_include c (template_slots r)
          (dom (hardcore_forced r)) < length pools).

(** * Properties *)

(** ** Facts about the Python built-ins *)

Section sort_facts.
Context {A : Type} (key : A → Z).

Lemma insert_desc_perm x l : Py.insert_desc key x l ≡ₚ x :: l.
Proof.
  induction l as [|y l IH]; simpl; [done|].
  destruct (key x <? key y)%Z; [|done].
  rewrite IH. apply Permutation_swap.
Qed.

Lemma sort_desc_perm l : Py.sort_desc key l ≡ₚ l.
Proof.
  induction l as [|x l IH]; simpl; [done|].
  by rewrite insert_desc_perm, IH.
Qed.

Lemma insert_desc_hd x y l :
  (key x < key y)%Z → HdRel (desc key) y l → HdRel (desc key) y (Py.insert_desc key x l).
Proof.
  intros Hxy Hhd. destruct l as [|z l]; simpl.
  - constructor. unfold desc. lia.
  - inversion_clear Hhd. destruct (key x <? key z)%Z; constructor;
      unfold desc in *; lia.
Qed.

Lemma insert_desc_sorted x l :
  Sorted (desc key) l → Sorted (desc key) (Py.insert_desc key x l).
Proof.
  induction 1 as [|y l Hl IH Hhd]; simpl.
  - repeat constructor.
  - destruct (Z.ltb_spec (key x) (key y)).
    + constructor; [done|]. by apply insert_desc_hd.
    + constructor; [by constructor|]. constructor. unfold desc. lia.
Qed.

Lemma sort_desc_sorted l : Sorted (desc key) (Py.sort_desc key l).
Proof.
  induction l; simpl; [constructor|]. by apply insert_desc_sorted.
Qed.

Lemma elem_of_sort_desc x l : x ∈ Py.sort_desc key l ↔ x ∈ l.
Proof. by rewrite sort_desc_perm. Qed.

Lemma length_sort_desc l : length (Py.sort_desc key l) = length l.
Proof. by rewrite sort_desc_perm. Qed.
End sort_facts.

Lemma slice_to_take {A} (l : list A) n : ∃ k, Py.slice_to l n = take k l.
Proof. unfold Py.slice_to. destruct (n <? 0)%Z; eauto. Qed.

Lemma elem_of_slice_to {A} (l : list A) n x : x ∈ Py.slice_to l n → x ∈ l.
Proof.
  destruct (slice_to_take l n) as [k ->]. apply subseteq_take.
Qed.

Lemma elem_of_product {A} (pools : list (list A)) c :
  c ∈ Py.product pools ↔ Forall2 (λ x pool, x ∈ pool) c pools.
Proof.
  revert c. induction pools as [|p ps IH]; intros c; simpl.
  - rewrite list_elem_of_singleton. split; [intros ->; constructor|].
    by inversion 1.
  - rewrite list_elem_of_bind. split.
    + intros (x & Hc & Hx). apply list_elem_of_fmap in Hc as (c' & -> & Hc').
      constructor; [done|]. by apply IH.
    + inversion 1 as [|x ? c' ? Hx Hc']; subst. exists x. split; [|done].
      apply list_elem_of_fmap. exists c'. split; [done|]. by apply IH.
Qed.

Lemma product_length {A} (pools : list (list A)) c :
  c ∈ Py.product pools → length c = length pools.
Proof. rewrite elem_of_product. apply Forall2_length. Qed.

Lemma product_nil {A} (pools : list (list A)) :
  [] ∈ pools → Py.product pools = [].
Proof.
  induction pools as [|p ps IH]; [by inversion 1|].
  intros [<-|Hin]%elem_of_cons; simpl; [done|].
  rewrite IH by done. by induction p.
Qed.

(** ** Availability *)

Lemma sorted_perm l : Py.sorted l ≡ₚ l.
Proof. apply merge_sort_Permutation. Qed.

Lemma sorted_Sorted l : Sorted String.le (Py.sorted l).
Proof. apply (Sorted_merge_sort String.le). Qed.

Lemma elem_of_sorted c l : c ∈ Py.sorted l ↔ c ∈ l.
Proof. by rewrite sorted_perm. Qed.

Lemma rated_dom ratings era c :
  c ∈ dom (default (∅ : gmap string (gmap string Z)) (ratings !! era))
  ↔ rated ratings era c.
Proof.
  rewrite elem_of_dom. unfold rated. destruct (ratings !! era) as [m|]; simpl.
  - split; [eauto|]. by intros (? & [= <-] & ?).
  - rewrite lookup_empty. split; [by intros [? ?]|]. by intros (? & ? & ?).
Qed.

(** C7.  [get_available_classes] returns the sorted, duplicate-free list whose
    members are exactly the classes rated in the era or added by the ruleset
    for the era, less the classes the ruleset removes for the era; this
    list is determined by that set alone, so equal inputs give equal
    outputs. *)
Theorem get_available_classes_sorted_set (ratings : ratings_t) (era : string)
    (rs : ruleset) :
  Sorted String.le (get_available_classes ratings era rs)
  ∧ NoDup (get_available_classes ratings era rs)
  ∧ (∀ c, c ∈ get_available_classes ratings era rs
          ↔ (rated ratings era c ∨ c ∈ ruleset_additions rs era)
            ∧ c ∉ ruleset_removals rs era)
  ∧ (∀ l, Sorted String.le l → NoDup l →
          (∀ c, c ∈ l ↔ c ∈ get_available_classes ratings era rs) →
          l = get_available_classes ratings era rs).
Proof.
  assert (Hnd : NoDup (get_available_classes ratings era rs)).
  { unfold get_available_classes. rewrite sorted_perm. apply NoDup_elements. }
  repeat split; try done.
  - apply sorted_Sorted.
  - unfold get_available_classes, set_of in H.
    rewrite elem_of_sorted, elem_of_elements in H.
    apply elem_of_difference in H as [[H|H]%elem_of_union _].
    + left. by apply rated_dom.
    + right. by apply elem_of_list_to_set in H.
  - unfold get_available_classes, set_of in H.
    rewrite elem_of_sorted, elem_of_elements in H.
    apply elem_of_difference in H as [_ H]. intros Hin. apply H.
    by apply elem_of_list_to_set.
  - intros [Hin Hout]. unfold get_available_classes, set_of.
    rewrite elem_of_sorted, elem_of_elements. apply elem_of_difference. split.
    + apply elem_of_union. destruct Hin as [Hin|Hin]; [left|right].
      * by apply rated_dom.
      * by apply elem_of_list_to_set.
    + intros Hin'. apply Hout. by apply elem_of_list_to_set in Hin'.
  - intros l Hs Hn Hmem. apply (Sorted_unique String.le); [done| |].
    + apply sorted_Sorted.
    + by apply NoDup_Permutation.
Qed.

(** ** Role pools *)

Section ranked_facts.
Context (key : string → Z).

Lemma insert_desc_keyed x l :
  Py.insert_desc fst (key x, x) ((λ c, (key c, c)) <$> l)
  = (λ c, (key c, c)) <$> Py.insert_desc key x l.
Proof.
  induction l as [|y l IH]; csimpl; [done|].
  destruct (key x <? key y)%Z; csimpl; [|done]. by rewrite IH.
Qed.

Lemma sort_desc_keyed l :
  Py.sort_desc fst ((λ c, (key c, c)) <$> l)
  = (λ c, (key c, c)) <$> Py.sort_desc key l.
Proof.
  induction l as [|x l IH]; csimpl; [done|].
  by rewrite IH, insert_desc_keyed.
Qed.

(** Ranking by a key is the head of the stable descending sort. *)
Lemma keyed_take use n : keyed key use n = take n (Py.sort_desc key use).
Proof.
  unfold keyed, ranked. rewrite sort_desc_keyed, <-fmap_take, <-list_fmap_compose.
  apply list_fmap_id.
Qed.

Lemma keyed_subseteq use n c : c ∈ keyed key use n → c ∈ use.
Proof.
  rewrite keyed_take. intros Hc%subseteq_take. by apply elem_of_sort_desc in Hc.
Qed.
End ranked_facts.

Lemma ranked_keyed (f : string → Z) (l : list string) n :
  ranked n ((λ c, (f c, c)) <$> l) = keyed f l n.
Proof. done. Qed.

Section pool_facts.
Context (available : list string) (ratings : ratings_t) (era : string).
Context (boxing_mode start : string) (require_charm : bool).

Lemma top_by_subseteq cat n c :
  c ∈ top_by available ratings era boxing_mode start require_charm cat n →
  c ∈ available.
Proof. unfold top_by. rewrite ranked_keyed. apply keyed_subseteq. Qed.

Lemma members_by_subseteq s cat n c :
  c ∈ members_by available ratings era s cat n → c ∈ available.
Proof.
  unfold members_by. rewrite ranked_keyed.
  intros Hc%keyed_subseteq. by apply list_elem_of_filter in Hc as [_ ?].
Qed.

Lemma manual_use_subseteq use c : c ∈ manual_use boxing_mode use → c ∈ use.
Proof.
  unfold manual_use. case_bool_decide; [|done].
  by intros [_ ?]%list_elem_of_filter.
Qed.

(** Every pool is drawn from the available classes. *)
Lemma role_candidates_subseteq role c :
  c ∈ role_candidates available ratings era boxing_mode start require_charm role →
  c ∈ available.
Proof.
  unfold role_candidates.
  repeat case_bool_decide; simpl;
    eauto using top_by_subseteq, members_by_subseteq.
  all: try (intros Hc%list_elem_of_filter; by destruct Hc).
  all: try by intros ?%elem_of_nil.
  all: try (by intros ->%list_elem_of_singleton).
  all: intros Hc%keyed_subseteq; try done.
  all: try apply manual_use_subseteq in Hc; try done.
  by apply list_elem_of_filter in Hc as [_ ?].
Qed.
End pool_facts.

(** *** The generic [dps] slot *)

Lemma role_candidates_dps available ratings era boxing_mode start require_charm :
  role_candidates available ratings era boxing_mode start require_charm "dps"
  = keyed (dps_key ratings era boxing_mode start require_charm) available 10.
Proof.
  unfold role_candidates. repeat case_bool_decide; simplify_eq.
  unfold top_by, keyed. f_equal. apply list_fmap_ext. intros _ c _.
  rewrite bool_decide_eq_true_2 by done. f_equal.
  unfold dps_key, dps_key_spec, add_if.
  destruct (require_charm && bool_decide (c = "Enchanter")); lia.
Qed.

(** C5, as stated, fails: with charm required the [dps] pool puts
    [Enchanter] (rated 40) before [Wizard] (rated 50), although the key of
    the claim ranks [Wizard] first and the two calls differ in
    [require_charm] only. *)
Lemma dps_pool_depends_on_require_charm :
  role_candidates ["Enchanter"; "Wizard"] ratings_casters "classic" "manual"
    "assisted" true "dps" = ["Enchanter"; "Wizard"]
  ∧ role_candidates ["Enchanter"; "Wizard"] ratings_casters "classic" "manual"
      "assisted" false "dps" = ["Wizard"; "Enchanter"]
  ∧ keyed (dps_key_spec ratings_casters "classic" "manual" "assisted")
      ["Enchanter"; "Wizard"] 10 = ["Wizard"; "Enchanter"].
Proof. by vm_compute. Qed.

(** C5, amended.  The [dps] pool is the first 10 of the available classes
    arranged in non-increasing order of the key [dps rating - manual melee
    penalty + start bonus + (30 for Enchanter when charm is required)]; the
    key is the one of the claim exactly when charm is not required or the
    class is not Enchanter. *)
Theorem role_candidates_dps_top10 (available : list string)
    (ratings : ratings_t) (era boxing_mode start : string)
    (require_charm : bool) :
  let key := dps_key ratings era boxing_mode start require_charm in
  let out :=
    role_candidates available ratings era boxing_mode start require_charm "dps" in
  (∃ rest, out ++ rest ≡ₚ available
           ∧ Sorted (desc key) (out ++ rest)
           ∧ length out = min 10 (length available))
  ∧ (∀ c, key c = dps_key_spec ratings era boxing_mode start c
          ∨ (require_charm = true ∧ c = "Enchanter"
             ∧ key c = (dps_key_spec ratings era boxing_mode start c + 30)%Z)).
Proof.
  intros key out. split.
  - exists (drop 10 (Py.sort_desc key available)).
    unfold out. rewrite role_candidates_dps, keyed_take. fold key.
    rewrite take_drop. split_and!.
    + apply sort_desc_perm.
    + apply sort_desc_sorted.
    + rewrite length_take, length_sort_desc. lia.
  - intros c. unfold key, dps_key. destruct require_charm; simpl; [|left; lia].
    case_bool_decide; [right|left]; [done|lia].
Qed.

(** ** Slot forcing *)

Lemma elem_of_enumerate {A} (l : list A) i x :
  (i, x) ∈ enumerate l ↔ l !! i = Some x.
Proof.
  unfold enumerate. rewrite elem_of_lookup_imap. split.
  - by intros (? & ? & [= <- <-] & ?).
  - eauto.
Qed.

Lemma elem_of_indices_of name template i :
  i ∈ indices_of name template ↔ template !! i = Some name.
Proof.
  unfold indices_of. rewrite list_elem_of_fmap. split.
  - intros ([j s] & -> & [Hs Hin]%list_elem_of_filter). simpl in *. subst.
    by apply elem_of_enumerate.
  - intros Hi. exists (i, name). split; [done|].
    apply list_elem_of_filter. split; [done|]. by apply elem_of_enumerate.
Qed.

(** The slots open to forcing are never [tank] or [charm_tank], and under
    hardcore they are [dps] slots. *)
Lemma flex_slot_indices_spec template hardcore i :
  i ∈ _flex_slot_indices template hardcore →
  ∃ slot, template !! i = Some slot ∧ (slot ∉ non_flex)
          ∧ (hardcore = true → slot = "dps").
Proof.
  unfold _flex_slot_indices. destruct hardcore.
  { intros Hi%elem_of_indices_of. exists "dps". split_and!; [done| |done].
    by vm_compute. }
  case_bool_decide as Htpl.
  { subst template. intros Hi. apply elem_of_cons in Hi as [->|Hi].
    - exists "dps". split_and!; [done|by vm_compute|done].
    - apply list_elem_of_singleton in Hi as ->.
      exists "healer". split_and!; [done|by vm_compute|done]. }
  intros [Hi|Hi]%elem_of_app.
  - apply list_elem_of_join in Hi as (l & Hi & Hl).
    apply list_elem_of_fmap in Hl as (name & -> & Hname).
    apply elem_of_indices_of in Hi. exists name. split_and!; [done| |done].
    unfold flex_order in Hname.
    repeat (apply elem_of_cons in Hname as [->|Hname]; [by vm_compute|]).
    by apply elem_of_nil in Hname.
  - apply list_elem_of_fmap in Hi as ([j s] & -> & [[_ Hs] Hin]%list_elem_of_filter).
    simpl in *. apply elem_of_enumerate in Hin. exists s. by split_and!.
Qed.

Lemma force_loop_keys reqs slots forced i :
  i ∈ dom (force_loop reqs slots forced) → i ∈ dom forced ∨ i ∈ slots.
Proof.
  revert reqs forced. induction slots as [|s slots IH]; intros reqs forced; simpl.
  { auto. }
  case_bool_decide; [auto|].
  destruct (_best_intersection_group reqs) as [pool idxs].
  destruct (bool_decide (idxs = []) || negb (nonempty pool)); [auto|].
  intros [Hi|Hi]%IH.
  - apply elem_of_dom in Hi. rewrite lookup_insert in Hi.
    case_decide; subst.
    + right. apply elem_of_cons. auto.
    + left. by apply elem_of_dom.
  - right. apply elem_of_cons. auto.
Qed.

Lemma force_constraints_keys template available rp rrs rc rph rk sat hc i :
  i ∈ dom (force_constraints_into_slots template available rp rrs rc rph rk sat hc) →
  i ∈ _flex_slot_indices template hc.
Proof.
  unfold force_constraints_into_slots.
  repeat case_bool_decide; try by rewrite dom_empty_L; intros ?%elem_of_empty.
  intros [Hi|Hi]%force_loop_keys; [|done].
  rewrite dom_empty_L in Hi. by apply elem_of_empty in Hi.
Qed.

(** C3.  Every key of the map returned by [force_constraints_into_slots] is
    the index of a template slot that is neither [tank] nor [charm_tank];
    when [hardcore_required] is true, it is the index of a [dps] slot. *)
Theorem force_constraints_never_tank
    (template_slots available : list string)
    (require_ports require_run_speed require_charm require_pet_heavy
       require_kiting : bool)
    (already_satisfied : gset string) (hardcore_required : bool)
    (i : nat) (pool : gset string) :
  force_constraints_into_slots template_slots available require_ports
    require_run_speed require_charm require_pet_heavy require_kiting
    already_satisfied hardcore_required !! i = Some pool →
  ∃ slot, template_slots !! i = Some slot
          ∧ slot ≠ "tank" ∧ slot ≠ "charm_tank"
          ∧ (hardcore_required = true → slot = "dps").
Proof.
  intros Hi.
  assert (Hdom : i ∈ dom (force_constraints_into_slots template_slots available
                            require_ports require_run_speed require_charm
                            require_pet_heavy require_kiting already_satisfied
                            hardcore_required)).
  { apply elem_of_dom. eauto. }
  apply force_constraints_keys, flex_slot_indices_spec in Hdom
    as (slot & Hslot & Hflex & Hhc).
  exists slot. split_and!; [done| | |done].
  - intros ->. apply Hflex. by vm_compute.
  - intros ->. apply Hflex. by vm_compute.
Qed.

(** An instance: charm and pet-heavy required under hardcore focus on the
    6-box template; the charm requirement lands on the first [dps] slot. *)
Lemma force_constraints_never_tank_witness :
  force_constraints_into_slots
    ["tank"; "healer"; "slow"; "cc"; "dps"; "dps"] ["Enchanter"; "Magician"]
    false false true true false ∅ true !! 4%nat = Some {[ "Enchanter" ]}
  ∧ ∃ slot, ["tank"; "healer"; "slow"; "cc"; "dps"; "dps"] !! 4%nat = Some slot
            ∧ slot ≠ "tank" ∧ slot ≠ "charm_tank"
            ∧ (true = true → slot = "dps").
Proof.
  assert (H : force_constraints_into_slots
                ["tank"; "healer"; "slow"; "cc"; "dps"; "dps"]
                ["Enchanter"; "Magician"]
                false false true true false ∅ true !! 4%nat
              = Some {[ "Enchanter" ]}) by (vm_compute; reflexivity).
  split; [exact H|].
  exact (force_constraints_never_tank _ _ _ _ _ _ _ _ _ _ _ H).
Defined.

(** ** Scoring *)

Lemma first_index_Some (P : nat * string → Prop) `{∀ p, Decision (P p)}
    (template : list string) i :
  first_index P template = Some i → ∃ s, template !! i = Some s ∧ P (i, s).
Proof.
  unfold first_index. destruct (list_find P (enumerate template))
    as [[j [i' s]]|] eqn:Hfind; simpl; [|done].
  intros [= <-]. apply list_find_Some in Hfind as (Hj & HP & _).
  exists s. split; [|done].
  apply elem_of_enumerate. by eapply list_elem_of_lookup_2.
Qed.

Lemma first_index_None (P : nat * string → Prop) `{∀ p, Decision (P p)}
    (template : list string) i s :
  first_index P template = None → template !! i = Some s → ¬ P (i, s).
Proof.
  unfold first_index. destruct (list_find P (enumerate template)) eqn:Hfind;
    simpl; [done|]. intros _ Hi.
  apply list_find_None in Hfind. rewrite Forall_forall in Hfind.
  apply Hfind. by apply elem_of_enumerate.
Qed.

(** The healer lookup cannot fail when the comp covers the template. *)
Lemma main_healer_total comp template :
  (length template ≤ length comp)%nat → is_Some (main_healer_of comp template).
Proof.
  intros Hlen. unfold main_healer_of.
  destruct (first_index _ template) as [i|] eqn:Hi; [|eauto].
  apply first_index_Some in Hi as (s & Hs & _).
  apply lookup_lt_Some in Hs.
  destruct (lookup_lt_is_Some_2 comp i) as [c ->]; [lia|eauto].
Qed.

Lemma slot_value_is_Some ratings era cls slot boxing_mode comp template :
  is_Some (main_healer_of comp template) →
  is_Some (_slot_value ratings era cls slot boxing_mode (Some comp) (Some template)).
Proof.
  intros [h Hh]. unfold _slot_value. rewrite Hh. simpl.
  by destruct (_ && _).
Qed.

Section score_facts.
Context (comp : list string) (ratings : ratings_t).
Context (era boxing_mode start : string) (require_charm : bool).
Context (template : list string).
Context (hardcore_required require_run_speed require_ports : bool).

Lemma score_slots_spec pairs a a' :
  score_slots comp ratings era boxing_mode start require_charm template
    hardcore_required a pairs = Some a' →
  ∃ bs, a_slot_breakdowns a' = a_slot_breakdowns a ++ bs
        ∧ (λ b, (sb_slot b, sb_class b)) <$> bs = pairs
        ∧ Forall (breakdown_ok comp ratings era boxing_mode start require_charm
                    template) bs
        ∧ a_slot_total a'
          = foldl (λ t b, (t + sb_value b)%float) (a_slot_total a) bs
        ∧ a_start_bonus_total a'
          = foldl (λ t p, (t + start_condition_bonus start p.2)%Z)
              (a_start_bonus_total a) pairs
        ∧ a_hardcore_warrior_bonus a'
          = if hardcore_required && existsb is_tank_warrior pairs
            then 18%Z else a_hardcore_warrior_bonus a.
Proof.
  revert a. induction pairs as [|[slot cls] pairs IH]; intros a; simpl.
  { intros [= <-]. exists []. rewrite app_nil_r, andb_false_r.
    split_and!; try done. }
  unfold score_slot at 1.
  destruct (_slot_value _ _ _ _ _ _ _) as [[v bd]|] eqn:Hv; simpl; [|done].
  intros (bs & Hbs & Hpairs & Hok & Htot & Hsb & Hhw)%IH. cbn [a_slot_breakdowns
    a_slot_total a_start_bonus_total a_hardcore_warrior_bonus] in *.
  eexists (_ :: bs). rewrite Hbs, <-app_assoc. split_and!.
  - done.
  - rewrite fmap_cons. by rewrite Hpairs.
  - constructor; [|done]. exists v. by split_and!.
  - done.
  - done.
  - rewrite Hhw. unfold is_tank_warrior at 2. simpl.
    destruct hardcore_required, (bool_decide (slot = "tank")),
      (bool_decide (cls = "Warrior")), (existsb is_tank_warrior pairs); done.
Qed.

Lemma score_slots_is_Some pairs a :
  is_Some (main_healer_of comp template) →
  is_Some (score_slots comp ratings era boxing_mode start require_charm template
             hardcore_required a pairs).
Proof.
  intros Hh. revert a. induction pairs as [|[slot cls] pairs IH]; intros a;
    simpl; [eauto|].
  unfold score_slot at 1.
  destruct (slot_value_is_Some ratings era cls slot boxing_mode comp template Hh)
    as [[v bd] ->]. simpl. apply IH.
Qed.

Lemma score_comp_explain_is_Some :
  (length template ≤ length comp)%nat →
  is_Some (score_comp_explain comp ratings era boxing_mode start require_charm
             template hardcore_required require_run_speed require_ports).
Proof.
  intros Hlen. unfold score_comp_explain.
  destruct (score_slots_is_Some (zip template comp) slot_acc0) as [a ->];
    [by apply main_healer_total|]. simpl. eauto.
Qed.
End score_facts.

(** C10.  Whenever [score_comp_explain] returns, the score is the [total]
    field of the explanation and the slot breakdowns list the pairs of
    [zip(template_slots, comp)], one entry each, in template order; and it
    does return for every comp as long as the template. *)
Theorem score_comp_explain_consistent (comp : list string)
    (ratings : ratings_t) (era boxing_mode start : string)
    (require_charm : bool) (template_slots : list string)
    (hardcore_required require_run_speed require_ports : bool) :
  (∀ total d,
     score_comp_explain comp ratings era boxing_mode start require_charm
       template_slots hardcore_required require_run_speed require_ports
     = Some (total, d) →
     total = d_total d
     ∧ (λ b, (sb_slot b, sb_class b)) <$> d_slot_breakdowns d
       = zip template_slots comp)
  ∧ (length comp = length template_slots →
     is_Some (score_comp_explain comp ratings era boxing_mode start
                require_charm template_slots hardcore_required
                require_run_speed require_ports)).
Proof.
  split.
  - intros total d. unfold score_comp_explain.
    destruct (score_slots _ _ _ _ _ _ _ _ _ _) as [a|] eqn:Ha; simpl; [|done].
    intros [= <- <-]. simpl. split; [done|].
    apply score_slots_spec in Ha as (bs & -> & <- & _). done.
  - intros Hlen. apply score_comp_explain_is_Some. lia.
Qed.

(** *** Truncation of the total *)

Lemma quot_div_pos n d :
  (0 < d)%Z →
  Z.quot n d
  = (n `div` d + if bool_decide (n < 0 ∧ n `mod` d ≠ 0) then 1 else 0)%Z.
Proof.
  intros Hd. destruct (Z.le_gt_cases 0 n) as [Hn|Hn].
  - rewrite bool_decide_eq_false_2 by lia.
    rewrite Z.quot_div_nonneg by lia. lia.
  - replace n with (- - n)%Z at 1 by lia.
    rewrite Z.quot_opp_l, Z.quot_div_nonneg by lia.
    destruct (decide (n `mod` d = 0)%Z) as [Hz|Hnz].
    + rewrite bool_decide_eq_false_2 by lia.
      rewrite Z.div_opp_l_z by (done || lia). lia.
    + rewrite bool_decide_eq_true_2 by lia.
      rewrite Z.div_opp_l_nz by (done || lia). lia.
Qed.

Lemma float_den_pos f : (0 < (Py.float_num_den f).2)%Z.
Proof.
  unfold Py.float_num_den. destruct (Prim2SF f) as [| | |s m e]; simpl; try lia.
  destruct e; simpl; lia.
Qed.

(** [int()] against [floor]: they differ, by one, exactly on the negative
    non-integers. *)
Lemma int_of_float_floor f :
  Py.int_of_float f
  = (Py.floor f + if bool_decide (negative_fraction f) then 1 else 0)%Z.
Proof.
  unfold Py.int_of_float, Py.floor, negative_fraction.
  pose proof (float_den_pos f). destruct (Py.float_num_den f) as [n d].
  by apply quot_div_pos.
Qed.

(** C6, as stated, fails: for the duo [Warrior, Cleric] over this table the
    slot values are 0.25 and 0, the no-slow penalty is -25, the sum is
    -24.75 (every float operation involved is exact), its floor is -25 and
    the score returned is -24. *)
Lemma score_of_negative_sum_is_not_floor :
  ∃ d, score_comp_explain ["Warrior"; "Cleric"] ratings_weak_tank "classic" "manual"
         "assisted" false ["tank"; "healer"] false false false = Some ((-24)%Z, d)
       ∧ sb_value <$> d_slot_breakdowns d = [0.25%float; 0%float]
       ∧ comp_sum ["Warrior"; "Cleric"] "manual" "assisted" false
           ["tank"; "healer"] false false false d = (-24.75)%float
       ∧ Py.floor (-24.75)%float = (-25)%Z.
Proof. eexists. split_and!; by vm_compute. Qed.

(** C6, amended.  The score is the float sum of the per-slot values and the
    whole-comp adjustments truncated toward zero: it is the floor of the sum
    unless the sum is negative and not whole, where it is the floor plus
    one.  Each per-slot value is the one [_slot_value] gives (plus 30 for
    Enchanter when charm is required); a score is returned for every comp as
    long as the template. *)
Theorem score_is_truncated_sum (comp : list string)
    (ratings : ratings_t) (era boxing_mode start : string)
    (require_charm : bool) (template_slots : list string)
    (hardcore_required require_run_speed require_ports : bool) :
  (∀ total d,
     score_comp_explain comp ratings era boxing_mode start require_charm
       template_slots hardcore_required require_run_speed require_ports
     = Some (total, d) →
     let sum := comp_sum comp boxing_mode start require_charm template_slots
                  hardcore_required require_run_speed require_ports d in
     Forall (breakdown_ok comp ratings era boxing_mode start require_charm
               template_slots) (d_slot_breakdowns d)
     ∧ total = Py.int_of_float sum
     ∧ total = (Py.floor sum
                + if bool_decide (negative_fraction sum) then 1 else 0)%Z)
  ∧ (length comp = length template_slots →
     is_Some (score_comp_explain comp ratings era boxing_mode start
                require_charm template_slots hardcore_required
                require_run_speed require_ports)).
Proof.
  split; [|intros Hlen; apply score_comp_explain_is_Some; lia].
  intros total d Hsce sum.
  assert (Hsum : Forall (breakdown_ok comp ratings era boxing_mode start
                           require_charm template_slots) (d_slot_breakdowns d)
                 ∧ total = Py.int_of_float sum).
  { unfold score_comp_explain in Hsce.
    destruct (score_slots _ _ _ _ _ _ _ _ _ _) as [a|] eqn:Ha; simpl in Hsce;
      [|done].
    injection Hsce as <- <-.
    apply score_slots_spec in Ha as (bs & Hbs & _ & Hok & Htot & Hsb & Hhw).
    simpl in Hbs, Htot, Hsb, Hhw. subst bs.
    split; [done|]. unfold sum, comp_sum. simpl. by rewrite Htot, Hsb, Hhw. }
  destruct Hsum as [Hok Htotal]. split_and!; [done..|].
  by rewrite Htotal, int_of_float_floor.
Qed.

(** *** Forced pools hold available classes only *)

Section forced_pools.
Context (A : gset string).

Lemma lookup_total_subseteq (reqs : list (gset string)) j :
  Forall (λ req, req ⊆ A) reqs → reqs !!! j ⊆ A.
Proof.
  intros Hreqs. rewrite list_lookup_total_alt.
  destruct (reqs !! j) as [req|] eqn:Hj; simpl.
  - exact (Forall_lookup_1 _ _ _ _ Hreqs Hj).
  - unfold inhabitant. simpl. apply empty_subseteq.
Qed.

Lemma foldl_inter_subseteq (reqs : list (gset string)) js init :
  foldl (λ inter j', inter ∩ (reqs !!! j')) init js ⊆ init.
Proof.
  revert init. induction js as [|j js IH]; intros init; simpl; [done|].
  etrans; [apply IH|]. apply intersection_subseteq_l.
Qed.

Lemma inter_of_subseteq reqs idxs :
  Forall (λ req, req ⊆ A) reqs → inter_of reqs idxs ⊆ A.
Proof.
  intros Hreqs. destruct idxs as [|j js]; simpl; [apply empty_subseteq|].
  etrans; [apply foldl_inter_subseteq|]. by apply lookup_total_subseteq.
Qed.

Lemma consider_subseteq reqs best idxs :
  Forall (λ req, req ⊆ A) reqs → best.1 ⊆ A → (consider reqs best idxs).1 ⊆ A.
Proof.
  intros Hreqs Hbest. unfold consider.
  repeat (case_bool_decide || destruct (negb _) || destruct (_ && _));
    simpl; auto using inter_of_subseteq.
Qed.

Lemma scan_subseteq reqs combos best :
  Forall (λ req, req ⊆ A) reqs → best.1 ⊆ A →
  (foldl (consider reqs) best combos).1 ⊆ A.
Proof.
  intros Hreqs. revert best.
  induction combos as [|idxs combos IH]; intros best Hbest; simpl; [done|].
  by apply IH, consider_subseteq.
Qed.

Lemma scan_sizes_subseteq reqs ks best :
  Forall (λ req, req ⊆ A) reqs → best.1 ⊆ A → (scan_sizes reqs ks best).1 ⊆ A.
Proof.
  intros Hreqs. revert best.
  induction ks as [|k ks IH]; intros best Hbest; simpl; [done|].
  case_bool_decide; [|apply IH]; by apply scan_subseteq.
Qed.

Lemma best_intersection_group_subseteq reqs :
  Forall (λ req, req ⊆ A) reqs → (_best_intersection_group reqs).1 ⊆ A.
Proof.
  intros Hreqs. apply scan_sizes_subseteq; [done|]. apply empty_subseteq.
Qed.

Lemma delete_all_Forall idxs reqs :
  Forall (λ req, req ⊆ A) reqs → Forall (λ req, req ⊆ A) (delete_all idxs reqs).
Proof.
  unfold delete_all. generalize (Py.sort_desc Z.of_nat idxs). intros js.
  revert reqs. induction js as [|j js IH]; intros reqs Hreqs; simpl; [done|].
  by apply IH, Forall_delete.
Qed.

Lemma force_loop_pools reqs slots forced :
  Forall (λ req, req ⊆ A) reqs →
  map_Forall (λ _ pool, pool ⊆ A) forced →
  map_Forall (λ _ pool, pool ⊆ A) (force_loop reqs slots forced).
Proof.
  revert reqs forced.
  induction slots as [|s slots IH]; intros reqs forced Hreqs Hforced; simpl;
    [done|].
  case_bool_decide; [done|].
  pose proof (best_intersection_group_subseteq reqs Hreqs) as Hpool.
  destruct (_best_intersection_group reqs) as [pool idxs]. simpl in Hpool.
  destruct (bool_decide (idxs = []) || negb (nonempty pool)); [done|].
  apply IH; [by apply delete_all_Forall|]. by apply map_Forall_insert_2.
Qed.
End forced_pools.

Lemma build_requirement_sets_subseteq A rp rrs rc rph rk sat :
  Forall (λ req, req ⊆ A) (_build_requirement_sets A rp rrs rc rph rk sat).
Proof.
  unfold _build_requirement_sets. apply Forall_forall.
  intros req [_ Hreq]%list_elem_of_filter. revert Hreq.
  repeat (destruct (_ && negb _)); simpl; intros Hreq;
    repeat (apply elem_of_cons in Hreq as [->|Hreq];
            [apply intersection_subseteq_r|]);
    by apply elem_of_nil in Hreq.
Qed.

Lemma force_constraints_pools template available rp rrs rc rph rk sat hc i pool :
  force_constraints_into_slots template available rp rrs rc rph rk sat hc !! i
  = Some pool →
  pool ⊆ set_of available.
Proof.
  unfold force_constraints_into_slots.
  repeat case_bool_decide; try by rewrite lookup_empty.
  intros Hi. eapply (force_loop_pools (set_of available)); [| |exact Hi].
  - apply build_requirement_sets_subseteq.
  - apply map_Forall_empty.
Qed.

(** ** Enumeration *)

Lemma elem_of_set_of c l : c ∈ set_of l ↔ c ∈ l.
Proof. apply elem_of_list_to_set. Qed.

Lemma mem_true c s : mem c s = true ↔ c ∈ s.
Proof. unfold mem. apply bool_decide_eq_true. Qed.

Lemma nonempty_false s : nonempty s = false ↔ s = ∅.
Proof.
  unfold nonempty. rewrite bool_decide_eq_false. split; [|by intros ->; auto].
  intros Hs. by destruct (decide (s = ∅)).
Qed.

Section generate_facts.
Context (r : request).

Lemma length_slot_pools : length (slot_pools r) = length (template_slots r).
Proof.
  unfold slot_pools.
  assert (H : ∀ cs pools, length (foldl (inject r) pools cs) = length pools).
  { induction cs as [|c cs IH]; intros pools; simpl; [done|].
    rewrite IH. unfold inject.
    repeat (case_bool_decide || destruct (_ || _)); try done.
    apply length_alter. }
  rewrite H. unfold initial_pools. apply length_imap.
Qed.

Lemma visit_spec st picks :
  length picks = length (template_slots r) →
  ∃ st', visit r st picks = Some st'
         ∧ ∀ x, x ∈ st'.1 →
                x ∈ st.1
                ∨ (comp_of x = picks
                   ∧ skip_duplicates r picks = false
                   ∧ comp_matches_filters picks (must_include r) (exclude r) = true
                   ∧ comp_matches_constraints picks (require_ports r)
                       (require_run_speed r) (require_charm r)
                       (require_pet_heavy r) (require_kiting r) = true
                   ∧ ∃ d, score_request r picks = Some (score_of x, d)).
Proof.
  intros Hlen. unfold visit.
  destruct (skip_duplicates r picks) eqn:Hskip; [eauto|].
  case_bool_decide; [eauto|].
  destruct (comp_matches_filters _ _ _) eqn:Hf; simpl; [|eauto].
  destruct (comp_matches_constraints _ _ _ _ _ _) eqn:Hc; simpl; [|eauto].
  destruct (score_comp_explain_is_Some picks (ratings r) (era r) (boxing_mode r)
              (start r) (require_charm r) (template_slots r)
              (hardcore_required r) (require_run_speed r) (require_ports r))
    as [[score d] Hs]; [lia|].
  unfold score_request. rewrite Hs. simpl. eexists. split; [done|]. simpl.
  intros x [Hx|Hx]%elem_of_app; [by left|]. right.
  apply list_elem_of_singleton in Hx as ->. unfold comp_of, score_of. simpl.
  split_and!; eauto.
Qed.

Lemma visit_all_spec l st :
  Forall (λ picks, length picks = length (template_slots r)) l →
  ∃ st', visit_all r st l = Some st'
         ∧ ∀ x, x ∈ st'.1 →
                x ∈ st.1
                ∨ (comp_of x ∈ l
                   ∧ skip_duplicates r (comp_of x) = false
                   ∧ comp_matches_filters (comp_of x) (must_include r)
                       (exclude r) = true
                   ∧ comp_matches_constraints (comp_of x) (require_ports r)
                       (require_run_speed r) (require_charm r)
                       (require_pet_heavy r) (require_kiting r) = true
                   ∧ ∃ d, score_request r (comp_of x) = Some (score_of x, d)).
Proof.
  intros Hl. revert st. induction Hl as [|picks l Hlen _ IH]; intros st; simpl.
  { eauto. }
  destruct (visit_spec st picks Hlen) as (st1 & -> & H1). simpl.
  destruct (IH st1) as (st' & -> & H'). eexists. split; [done|].
  intros x [Hx|Hx]%H'.
  - apply H1 in Hx as [Hx|(<- & ?)]; [by left|right].
    split; [apply elem_of_cons; by left|done].
  - right. destruct Hx as [Hx ?]. split; [|done]. apply elem_of_cons. by right.
Qed.

(** The generator always returns, and returns accepted comps only. *)
Lemma generate_accepted :
  ∃ res, generate_scored_recommendations r = Some res
         ∧ Forall (accepted r) res.
Proof.
  unfold generate_scored_recommendations.
  destruct (visit_all_spec (Py.product (slot_pools r)) ([], ∅))
    as (st & -> & Hst).
  { apply Forall_forall. intros c Hc%product_length. by rewrite length_slot_pools in Hc. }
  simpl. eexists. split; [done|]. apply Forall_forall.
  intros x Hx%elem_of_slice_to%elem_of_sort_desc.
  apply Hst in Hx as [Hx|Hx]; [by apply elem_of_nil in Hx|].
  unfold accepted. done.
Qed.
End generate_facts.

Lemma comp_matches_filters_true comp must exclude :
  comp_matches_filters comp must exclude = true
  ↔ (∀ c, c ∈ comp → c ∉ exclude) ∧ (∀ m, m ∈ must → m ∈ comp).
Proof.
  unfold comp_matches_filters.
  destruct (nonempty _) eqn:Hne.
  { split; [done|]. intros [Hex _].
    apply bool_decide_eq_true in Hne. destruct Hne.
    apply set_eq. intros c. rewrite elem_of_intersection, elem_of_set_of.
    split; [|by intros ?%elem_of_empty]. intros [? ?]. by destruct (Hex c). }
  apply nonempty_false in Hne.
  destruct (forallb _ must) eqn:Hall; simpl.
  - split; [|done]. intros _. split.
    + intros c Hc Hx. eapply (not_elem_of_empty (C:=gset string) c). rewrite <-Hne.
      apply elem_of_intersection. by rewrite elem_of_set_of.
    + rewrite forallb_forall in Hall. intros m Hm%list_elem_of_In.
      apply Hall, mem_true in Hm. by apply elem_of_set_of.
  - split; [done|]. intros [_ Hmust].
    assert (forallb (λ m, mem m (set_of comp)) must = true) as Hall'; [|congruence].
    apply forallb_forall. intros m Hm%list_elem_of_In.
    apply mem_true, elem_of_set_of. auto.
Qed.

(** C2.  The generator returns a list, and every comp in it contains no
    excluded class and contains every must-include class. *)
Theorem generated_comps_respect_filters (r : request) :
  ∃ res, generate_scored_recommendations r = Some res
         ∧ Forall (λ x, (∀ c, c ∈ comp_of x → c ∉ exclude r)
                        ∧ (∀ m, m ∈ must_include r → m ∈ comp_of x)) res.
Proof.
  destruct (generate_accepted r) as (res & Hres & Hacc).
  exists res. split; [done|]. eapply Forall_impl; [exact Hacc|].
  intros x (_ & _ & Hf & _). by apply comp_matches_filters_true.
Qed.

(** *** Pools hold available classes only *)

Section pools_available.
Context (r : request).

Lemma hardcore_lock_values slot cls forced :
  map_Forall (λ _ pool, ∃ c, pool = [c] ∧ c ∈ available r) forced →
  map_Forall (λ _ pool, ∃ c, pool = [c] ∧ c ∈ available r)
    (hardcore_lock r slot cls forced).
Proof.
  intros Hforced. unfold hardcore_lock.
  destruct (bool_decide _ && mem cls (available_set r)) eqn:Hb; [|done].
  apply andb_true_iff in Hb as [_ Hcls%mem_true%elem_of_set_of].
  destruct (first_index _ _); [|done].
  apply map_Forall_insert_2; eauto.
Qed.

Lemma hardcore_forced_values :
  map_Forall (λ _ pool, ∃ c, pool = [c] ∧ c ∈ available r) (hardcore_forced r).
Proof.
  unfold hardcore_forced. destruct (hardcore_required r);
    [|apply map_Forall_empty].
  do 3 apply hardcore_lock_values. apply map_Forall_empty.
Qed.

Lemma initial_pool_available i slot c :
  c ∈ initial_pool r i slot → c ∈ available r.
Proof.
  unfold initial_pool.
  destruct (hardcore_forced r !! i) as [pool|] eqn:Hh.
  { apply hardcore_forced_values in Hh as (c' & -> & Hc').
    by intros ->%list_elem_of_singleton. }
  destruct (forced_slots r !! i) as [pool|] eqn:Hf.
  { apply force_constraints_pools in Hf.
    rewrite elem_of_sorted, elem_of_elements. intros Hc%Hf.
    by apply elem_of_set_of. }
  apply role_candidates_subseteq.
Qed.

Lemma initial_pools_available :
  Forall (λ pool, ∀ c, c ∈ pool → c ∈ available r) (initial_pools r).
Proof.
  apply Forall_forall. intros pool (i & slot & -> & _)%elem_of_lookup_imap.
  intros c. apply initial_pool_available.
Qed.

Lemma inject_available pools cls :
  Forall (λ pool, ∀ c, c ∈ pool → c ∈ available r) pools →
  Forall (λ pool, ∀ c, c ∈ pool → c ∈ available r) (inject r pools cls).
Proof.
  intros Hpools. unfold inject.
  destruct (negb (mem cls (available_set r)) || _) eqn:Hb; [done|].
  apply orb_false_iff in Hb as [Hcls%negb_false_iff%mem_true%elem_of_set_of _].
  repeat case_bool_decide; try done.
  apply Forall_alter; [done|]. intros pool _ Hpool.
  case_bool_decide; [done|]. intros c [?|Hc]%elem_of_app; [auto|].
  by apply list_elem_of_singleton in Hc as ->.
Qed.

Lemma slot_pools_available :
  Forall (λ pool, ∀ c, c ∈ pool → c ∈ available r) (slot_pools r).
Proof.
  unfold slot_pools. generalize initial_pools_available.
  generalize (initial_pools r). induction (must_include r) as [|cls cs IH];
    intros pools Hpools; simpl; [done|].
  by apply IH, inject_available.
Qed.
End pools_available.

(** C9.  The generator returns a list, and every class of every comp in it
    is one of the available classes. *)
Theorem generated_comps_use_available_classes (r : request) :
  ∃ res, generate_scored_recommendations r = Some res
         ∧ Forall (λ x, ∀ c, c ∈ comp_of x → c ∈ available r) res.
Proof.
  destruct (generate_accepted r) as (res & Hres & Hacc).
  exists res. split; [done|]. eapply Forall_impl; [exact Hacc|].
  intros x (Hprod%elem_of_product & _) c Hc.
  apply list_elem_of_lookup in Hc as [i Hi].
  destruct (Forall2_lookup_l _ _ _ _ _ Hprod Hi) as (pool & Hpool & Hin).
  exact (Forall_lookup_1 _ _ _ _ (slot_pools_available r) Hpool c Hin).
Qed.

(** *** Singleton slots and empty pools *)

Lemma role_candidates_charm_tank available ratings era boxing_mode start
    require_charm :
  role_candidates available ratings era boxing_mode start require_charm
    "charm_tank"
  = if bool_decide ("Enchanter" ∈ available) then ["Enchanter"] else [].
Proof.
  unfold role_candidates. repeat case_bool_decide; simplify_eq; done.
Qed.

Lemma role_candidates_kiter_swarm available ratings era boxing_mode start
    require_charm :
  role_candidates available ratings era boxing_mode start require_charm
    "kiter_swarm"
  = if bool_decide ("Bard" ∈ available) then ["Bard"] else [].
Proof.
  unfold role_candidates. repeat case_bool_decide; simplify_eq; done.
Qed.

Lemma generate_empty_pool (r : request) :
  [] ∈ slot_pools r → generate_scored_recommendations r = Some [].
Proof.
  intros Hnil. unfold generate_scored_recommendations.
  rewrite (product_nil _ Hnil). simpl.
  destruct (slice_to_take (@nil scored) (limit r)) as [k ->]. by rewrite take_nil.
Qed.

(** C8.  The [charm_tank] pool is [[Enchanter]] when Enchanter is available
    and empty otherwise, likewise [kiter_swarm] with Bard; and when the pool
    of some slot is empty and nothing must be included, the generator
    returns the empty list (and does not raise). *)
Theorem singleton_slots_and_empty_pools :
  (∀ available ratings era boxing_mode start require_charm,
     role_candidates available ratings era boxing_mode start require_charm
       "charm_tank"
     = if bool_decide ("Enchanter" ∈ available) then ["Enchanter"] else [])
  ∧ (∀ available ratings era boxing_mode start require_charm,
       role_candidates available ratings era boxing_mode start require_charm
         "kiter_swarm"
       = if bool_decide ("Bard" ∈ available) then ["Bard"] else [])
  ∧ (∀ r i slot,
       must_include r = [] →
       template_slots r !! i = Some slot →
       initial_pool r i slot = [] →
       generate_scored_recommendations r = Some []).
Proof.
  split_and!.
  - apply role_candidates_charm_tank.
  - apply role_candidates_kiter_swarm.
  - intros r i slot Hmust Hslot Hpool. apply generate_empty_pool.
    unfold slot_pools. rewrite Hmust. simpl. rewrite <-Hpool.
    by apply elem_of_lookup_imap_2.
Qed.

Example charm_duo_without_enchanter :
  initial_pool request_no_enchanter 0 "charm_tank" = []
  ∧ generate_scored_recommendations request_no_enchanter = Some [].
Proof.
  assert (H : initial_pool request_no_enchanter 0 "charm_tank" = [])
    by (by vm_compute).
  split; [exact H|].
  by apply (proj2 (proj2 singleton_slots_and_empty_pools)
              request_no_enchanter 0%nat "charm_tank").
Defined.

(** *** Hardcore-locked slots *)

Lemma first_typed_slot_Some types template excluded i :
  first_typed_slot types template excluded = Some i → i ∉ excluded.
Proof.
  induction types as [|ty types IH]; simpl; [done|].
  destruct (first_index _ template) as [j|] eqn:Hj; [|done].
  intros [= <-]. by apply first_index_Some in Hj as (s & _ & _ & ?).
Qed.

(** A required class is never added to an excluded slot while the template
    has a slot that is not excluded. *)
Lemma best_slot_index_free cls template (excluded : gset nat) j s :
  template !! j = Some s → j ∉ excluded →
  _best_slot_index_for_must_include cls template excluded ∉ excluded.
Proof.
  intros Hj Hfree. unfold _best_slot_index_for_must_include.
  destruct (first_typed_slot _ _ _) as [i|] eqn:Hi.
  { by eapply first_typed_slot_Some. }
  destruct (first_index _ template) as [i|] eqn:Hi'.
  { by apply first_index_Some in Hi' as (? & _ & ?). }
  by destruct (first_index_None _ _ _ _ Hi' Hj).
Qed.

Section locked.
Context (r : request) (i : nat) (cls : string).
Context (Hlock : hardcore_forced r !! i = Some [cls]).
Context (j : nat) (s : string).
Context (Hj : template_slots r !! j = Some s).
Context (Hfree : j ∉ dom (hardcore_forced r)).

Lemma inject_locked pools c :
  pools !! i = Some [cls] → inject r pools c !! i = Some [cls].
Proof.
  intros Hi. unfold inject.
  repeat (case_bool_decide || destruct (_ || _)); try done.
  rewrite list_lookup_alter_ne; [done|]. intros Heq.
  eapply best_slot_index_free; [exact Hj|exact Hfree|].
  rewrite Heq. apply elem_of_dom. eauto.
Qed.

Lemma slot_pools_locked slot :
  template_slots r !! i = Some slot → slot_pools r !! i = Some [cls].
Proof.
  intros Hslot. unfold slot_pools.
  assert (Hinit : initial_pools r !! i = Some [cls]).
  { unfold initial_pools. rewrite list_lookup_imap, Hslot. simpl.
    unfold initial_pool. by rewrite Hlock. }
  revert Hinit. generalize (initial_pools r).
  induction (must_include r) as [|c cs IH]; intros pools Hpools; simpl; [done|].
  by apply IH, inject_locked.
Qed.

(** Every returned comp holds the locked class in the locked slot. *)
Lemma accepted_locked slot x :
  template_slots r !! i = Some slot → accepted r x → comp_of x !! i = Some cls.
Proof.
  intros Hslot (Hprod%elem_of_product & _).
  destruct (Forall2_lookup_r _ _ _ _ _ Hprod (slot_pools_locked slot Hslot))
    as (c & Hc & Hin).
  by apply list_elem_of_singleton in Hin as ->.
Qed.
End locked.

Lemma get_template_solo_raid_6 : get_template 6 "solo_raid" = Some solo_raid_6.
Proof. by vm_compute. Qed.

Lemma hardcore_forced_solo_raid_6 (r : request) :
  template_slots r = solo_raid_6 → hardcore_required r = true →
  "Cleric" ∈ available r → "Shaman" ∈ available r → "Bard" ∈ available r →
  hardcore_forced r
  = <[3%nat := ["Bard"]]> (<[2%nat := ["Shaman"]]> (<[1%nat := ["Cleric"]]> ∅)).
Proof.
  intros Htpl Hhc Hc Hs Hb. unfold hardcore_forced, hardcore_lock.
  rewrite Hhc, Htpl.
  assert (mem "Cleric" (available_set r) = true) as ->
    by by apply mem_true, elem_of_set_of.
  assert (mem "Shaman" (available_set r) = true) as ->
    by by apply mem_true, elem_of_set_of.
  assert (mem "Bard" (available_set r) = true) as ->
    by by apply mem_true, elem_of_set_of.
  by vm_compute.
Qed.

(** C4, as stated, fails: the two best comps of this hardcore request fill
    the [dps] slots alike and differ in the [tank] slot. *)
Lemma solo_raid_comps_differ_in_tank :
  get_template 6 "solo_raid" = Some (template_slots request_solo_raid)
  ∧ ∃ rest,
      generate_scored_recommendations request_solo_raid
      = Some ((427%Z, ["Warrior"; "Cleric"; "Shaman"; "Bard"; "Wizard"; "Wizard"], None)
              :: (409%Z, ["Paladin"; "Cleric"; "Shaman"; "Bard"; "Wizard"; "Wizard"], None)
              :: rest).
Proof. split; [by vm_compute|]. eexists. by vm_compute. Qed.

(** C4, amended.  For the hardcore 6-box template with Cleric, Shaman and
    Bard available, the generator returns a list in which every comp has
    Cleric in the [healer] slot, Shaman in the [slow] slot and Bard in the
    [cc] slot; two returned comps can differ in the [tank] and [dps] slots
    only. *)
Theorem solo_raid_6_core_slots (r : request) :
  get_template 6 "solo_raid" = Some (template_slots r) →
  hardcore_required r = true →
  "Cleric" ∈ available r → "Shaman" ∈ available r → "Bard" ∈ available r →
  ∃ res,
    generate_scored_recommendations r = Some res
    ∧ Forall (λ x, ∀ i,
        (template_slots r !! i = Some "healer" → comp_of x !! i = Some "Cleric")
        ∧ (template_slots r !! i = Some "slow" → comp_of x !! i = Some "Shaman")
        ∧ (template_slots r !! i = Some "cc" → comp_of x !! i = Some "Bard")) res
    ∧ (∀ x y i, x ∈ res → y ∈ res → comp_of x !! i ≠ comp_of y !! i →
                template_slots r !! i = Some "tank"
                ∨ template_slots r !! i = Some "dps").
Proof.
  rewrite get_template_solo_raid_6. intros [= Htpl] Hhc Hc Hs Hb.
  symmetry in Htpl.
  pose proof (hardcore_forced_solo_raid_6 r Htpl Hhc Hc Hs Hb) as Hhf.
  assert (Hfree : 0%nat ∉ dom (hardcore_forced r)).
  { apply not_elem_of_dom. by rewrite Hhf. }
  assert (Htank : template_slots r !! 0%nat = Some "tank") by by rewrite Htpl.
  assert (Hlocked : ∀ x, accepted r x →
            comp_of x !! 1%nat = Some "Cleric"
            ∧ comp_of x !! 2%nat = Some "Shaman"
            ∧ comp_of x !! 3%nat = Some "Bard"
            ∧ length (comp_of x) = 6%nat).
  { intros x Hx. split_and!.
    - eapply (accepted_locked r 1 "Cleric"); [by rewrite Hhf|exact Htank|
        exact Hfree|by rewrite Htpl|exact Hx].
    - eapply (accepted_locked r 2 "Shaman"); [by rewrite Hhf|exact Htank|
        exact Hfree|by rewrite Htpl|exact Hx].
    - eapply (accepted_locked r 3 "Bard"); [by rewrite Hhf|exact Htank|
        exact Hfree|by rewrite Htpl|exact Hx].
    - destruct Hx as (Hlen%product_length & _).
      by rewrite Hlen, length_slot_pools, Htpl. }
  destruct (generate_accepted r) as (res & Hres & Hacc).
  exists res. rewrite Forall_forall in Hacc. split_and!; [done| |].
  - apply Forall_forall. intros x (H1 & H2 & H3 & _)%Hacc%Hlocked i.
    rewrite Htpl.
    destruct i as [|[|[|[|[|[|i]]]]]]; split_and!; intros [=]; done.
  - intros x y i (Hx1 & Hx2 & Hx3 & Hxl)%Hacc%Hlocked
      (Hy1 & Hy2 & Hy3 & Hyl)%Hacc%Hlocked Hne.
    rewrite Htpl.
    destruct i as [|[|[|[|[|[|i]]]]]]; simpl; auto; try congruence.
    destruct Hne. rewrite !lookup_ge_None_2; [done|lia..].
Qed.

(** The request above meets the hypotheses. *)
Lemma solo_raid_6_core_slots_witness :
  ∃ res,
    generate_scored_recommendations request_solo_raid = Some res
    ∧ Forall (λ x, ∀ i,
        (template_slots request_solo_raid !! i = Some "healer"
           → comp_of x !! i = Some "Cleric")
        ∧ (template_slots request_solo_raid !! i = Some "slow"
             → comp_of x !! i = Some "Shaman")
        ∧ (template_slots request_solo_raid !! i = Some "cc"
             → comp_of x !! i = Some "Bard")) res
    ∧ (∀ x y i, x ∈ res → y ∈ res → comp_of x !! i ≠ comp_of y !! i →
                template_slots request_solo_raid !! i = Some "tank"
                ∨ template_slots request_solo_raid !! i = Some "dps").
Proof.
  apply (solo_raid_6_core_slots request_solo_raid).
  - reflexivity.
  - reflexivity.
  - apply (bool_decide_unpack _); vm_compute; exact I.
  - apply (bool_decide_unpack _); vm_compute; exact I.
  - apply (bool_decide_unpack _); vm_compute; exact I.
Defined.

(** *** Duplicate classes *)

(** C1 at this request: the best comp returned repeats two classes, and one
    of them, Shaman, sits in the [healer] and [slow] slots, outside the
    [dps] slots, under manual boxing, being neither a caster nor Ranger.
    The duplicate check of the loop looks at class counts only, never at
    the slots or at the number of repeated classes. *)
Lemma duplicates_outside_dps_slots :
  (∃ rest,
     generate_scored_recommendations request_one_healer
     = Some ((388%Z, ["Warrior"; "Shaman"; "Shaman"; "Bard"; "Wizard"; "Wizard"],
              None) :: rest))
  ∧ template_slots request_one_healer !! 1%nat = Some "healer"
  ∧ template_slots request_one_healer !! 2%nat = Some "slow"
  ∧ boxing_mode request_one_healer = "manual"
  ∧ mem "Shaman" CASTER_DPS = false
  ∧ skip_duplicates request_one_healer
      ["Warrior"; "Shaman"; "Shaman"; "Bard"; "Wizard"; "Wizard"] = false.
Proof. split_and!; [eexists|..]; by vm_compute. Qed.

(** What the duplicate check does enforce. *)

Local Open Scope nat_scope.

Lemma size_set_of_le l : size (set_of l) ≤ length l.
Proof.
  unfold set_of. induction l as [|x l IH].
  - by rewrite list_to_set_nil, size_empty.
  - rewrite list_to_set_cons, size_union_alt, size_singleton.
    assert (Hsub : (list_to_set l ∖ {[x]} : gset string) ⊆ list_to_set l)
      by by apply subseteq_difference_l.
    apply subseteq_size in Hsub. simpl. lia.
Qed.

Lemma length_size_NoDup l : length l = size (set_of l) → NoDup l.
Proof.
  induction l as [|x l IH]; [constructor|]. intros Hlen.
  pose proof (size_set_of_le l) as Hle. unfold set_of in *.
  rewrite list_to_set_cons in Hlen. simpl in Hlen.
  destruct (decide (x ∈ l)) as [Hin|Hin].
  - assert (Heq : ({[x]} ∪ list_to_set l : gset string) = list_to_set l).
    { apply subseteq_union_1_L, singleton_subseteq_l. by apply elem_of_list_to_set. }
    rewrite Heq in Hlen. lia.
  - rewrite size_union, size_singleton in Hlen
      by (apply disjoint_singleton_l; by rewrite elem_of_list_to_set).
    constructor; [done|]. apply IH. lia.
Qed.

Lemma occurrences_absent c l : c ∉ l → occurrences c l = 0.
Proof.
  unfold occurrences. induction l as [|x l IH]; [done|].
  intros [Hx Hl]%not_elem_of_cons. rewrite filter_cons.
  rewrite decide_False by done. auto.
Qed.

Lemma occurrences_NoDup c l : NoDup l → occurrences c l ≤ 1.
Proof.
  induction 1 as [|x l Hx _ IH]; [unfold occurrences; simpl; lia|].
  unfold occurrences in *. rewrite filter_cons. case_decide; [|done].
  subst. simpl. pose proof (occurrences_absent c l Hx) as Hz.
  unfold occurrences in Hz. lia.
Qed.

Lemma Counter_lookup comp c :
  default 0 (Counter comp !! c) = occurrences c comp.
Proof.
  unfold Counter, occurrences. induction comp as [|x comp IH] using rev_ind.
  { done. }
  rewrite foldl_snoc, filter_app, length_app, filter_cons, filter_nil.
  rewrite lookup_insert. 
  destruct (decide (x = c)) as [->|Hx]; simpl.
  - rewrite IH.  lia.
  - rewrite IH. lia.
Qed.

Lemma Counter_items comp c :
  2 ≤ occurrences c comp → (c, occurrences c comp) ∈ map_to_list (Counter comp).
Proof.
  intros Hc. apply elem_of_map_to_list. rewrite <-Counter_lookup in *.
  destruct (Counter comp !! c); simpl in *; [done|lia].
Qed.

Lemma skip_duplicates_guard (r : request) comp :
  skip_duplicates r comp = false →
  (allow_duplicate_dps r = false → NoDup comp)
  ∧ occurrences "Enchanter" comp ≤ 1
  ∧ (boxing_mode r = "manual" →
     ∀ c, melee_duplicate r c = true → occurrences c comp ≤ 1).
Proof.
  unfold skip_duplicates. case_bool_decide as Hlen.
  2:{ intros _. apply length_size_NoDup in Hlen.
      split_and!; auto using occurrences_NoDup. }
  destruct (allow_duplicate_dps r); simpl; [|done].
  destruct (existsb _ _) eqn:Hench; [done|].
  intros Hmelee. split_and!; [done| |].
  - destruct (decide (occurrences "Enchanter" comp ≤ 1)) as [|Hn]; [done|].
    assert (existsb (λ p, bool_decide (p.1 = "Enchanter") && bool_decide (1 < p.2))
              (map_to_list (Counter comp)) = true) as Hex; [|congruence].
    apply existsb_exists. exists ("Enchanter", occurrences "Enchanter" comp).
    split; [apply list_elem_of_In, Counter_items; lia|]. simpl.
    rewrite !bool_decide_eq_true_2 by (done || lia). done.
  - intros Hmanual c Hc. rewrite bool_decide_eq_true_2 in Hmelee by done.
    destruct (decide (occurrences c comp ≤ 1)) as [|Hn]; [done|].
    assert (existsb (λ p, bool_decide (1 < p.2) && melee_duplicate r p.1)
              (map_to_list (Counter comp)) = true) as Hex; [|congruence].
    apply existsb_exists. exists (c, occurrences c comp).
    split; [apply list_elem_of_In, Counter_items; lia|]. simpl.
    rewrite bool_decide_eq_true_2 by lia. by rewrite Hc.
Qed.

(** The generator returns a list in which a comp repeats a class only when
    the template has two or more [dps] slots, never holds Enchanter twice
    and, under manual boxing, never holds twice a melee class other than
    Ranger in the luclin and pop eras; every returned comp also passes the
    constraint filter. *)
Theorem generated_comps_duplicate_guard (r : request) :
  ∃ res,
    generate_scored_recommendations r = Some res
    ∧ Forall (λ x,
        (allow_duplicate_dps r = false → NoDup (comp_of x))
        ∧ occurrences "Enchanter" (comp_of x) ≤ 1
        ∧ (boxing_mode r = "manual" →
           ∀ c, melee_duplicate r c = true → occurrences c (comp_of x) ≤ 1)
        ∧ comp_matches_constraints (comp_of x) (require_ports r)
            (require_run_speed r) (require_charm r) (require_pet_heavy r)
            (require_kiting r) = true) res.
Proof.
  destruct (generate_accepted r) as (res & Hres & Hacc).
  exists res. split; [done|]. eapply Forall_impl; [exact Hacc|].
  intros x (_ & Hskip%skip_duplicates_guard & _ & Hc & _).
  destruct Hskip as (? & ? & ?). by split_and!.
Qed.

(** * Further properties *)

(** ** Default comps *)

Lemma filter_default_comps_filter defaults must exclude rp rrs rc rph rk :
  filter_default_comps defaults must exclude rp rrs rc rph rk
  = filter (default_kept must exclude rp rrs rc rph rk) defaults.
Proof.
  unfold filter_default_comps.
  induction defaults as [|[rank comp] defaults IH] using rev_ind; [done|].
  rewrite foldl_snoc, filter_app, IH, filter_cons, filter_nil. simpl.
  destruct (decide _) as [[Hf Hc]|Hk]; simpl in *.
  - by rewrite Hf, Hc.
  - rewrite app_nil_r.
    destruct (comp_matches_filters _ _ _) eqn:Hf; simpl; [|done].
    destruct (comp_matches_constraints _ _ _ _ _ _) eqn:Hc; simpl; [|done].
    by destruct Hk.
Qed.

(** [filter_default_comps] keeps, in their order, exactly the default comps
    that pass [comp_matches_filters] and [comp_matches_constraints]; running
    it again on its result changes nothing. *)
Theorem filter_default_comps_keeps_matching
    (defaults : list (Z * list string)) (must_include : list string)
    (exclude : gset string)
    (require_ports require_run_speed require_charm require_pet_heavy
       require_kiting : bool) :
  let out := filter_default_comps defaults must_include exclude require_ports
               require_run_speed require_charm require_pet_heavy
               require_kiting in
  out `sublist_of` defaults
  ∧ (∀ rank comp,
       (rank, comp) ∈ out
       ↔ (rank, comp) ∈ defaults
         ∧ comp_matches_filters comp must_include exclude = true
         ∧ comp_matches_constraints comp require_ports require_run_speed
             require_charm require_pet_heavy require_kiting = true)
  ∧ filter_default_comps out must_include exclude require_ports
      require_run_speed require_charm require_pet_heavy require_kiting = out.
Proof.
  intros out. unfold out. rewrite !filter_default_comps_filter. split_and!.
  - apply sublist_filter.
  - intros rank comp. rewrite list_elem_of_filter. unfold default_kept. simpl.
    tauto.
  - rewrite list_filter_filter. apply list_filter_iff. tauto.
Qed.

(** ** Slot orders *)

Lemma enumerate_fst {A} (l : list A) : (enumerate l).*1 = seq 0 (length l).
Proof.
  apply list_eq. intros i. unfold enumerate.
  rewrite list_lookup_fmap, list_lookup_imap.
  destruct (l !! i) as [x|] eqn:Hi; simpl.
  - symmetry. apply lookup_seq. split; [done|]. by eapply lookup_lt_Some.
  - symmetry. apply lookup_ge_None_2. rewrite length_seq.
    by apply lookup_ge_None_1.
Qed.

Lemma enumerate_filter_NoDup {A} (P : nat * A → Prop) `{∀ p, Decision (P p)}
    (l : list A) :
  NoDup (filter P (enumerate l)).*1.
Proof.
  apply (sublist_NoDup _ (seq 0 (length l))); [apply NoDup_seq|].
  rewrite <-enumerate_fst. apply fmap_sublist, sublist_filter.
Qed.

Lemma elem_of_enumerate_filter {A} (P : nat * A → Prop) `{∀ p, Decision (P p)}
    (l : list A) i :
  i ∈ (filter P (enumerate l)).*1 ↔ ∃ x, l !! i = Some x ∧ P (i, x).
Proof.
  rewrite list_elem_of_fmap. split.
  - intros ([j x] & -> & [HP Hin]%list_elem_of_filter). simpl.
    apply elem_of_enumerate in Hin. eauto.
  - intros (x & Hi & HP). exists (i, x). split; [done|].
    apply list_elem_of_filter. split; [done|]. by apply elem_of_enumerate.
Qed.

(** Walking the template once per name of a duplicate-free list of names
    visits no index twice. *)
Lemma indices_by_name_NoDup (order : list string) template :
  NoDup order →
  NoDup (mjoin ((λ name, indices_of name template) <$> order)).
Proof.
  induction 1 as [|name order Hname _ IH]; simpl; [constructor|].
  apply NoDup_app. split_and!; [apply enumerate_filter_NoDup| |done].
  intros i Hi%elem_of_indices_of (l & Hl & Hin)%list_elem_of_join.
  apply list_elem_of_fmap in Hin as (name' & -> & Hname').
  apply elem_of_indices_of in Hl. congruence.
Qed.

Lemma elem_of_indices_by_name (order : list string) template i :
  i ∈ mjoin ((λ name, indices_of name template) <$> order)
  ↔ ∃ name, template !! i = Some name ∧ name ∈ order.
Proof.
  rewrite list_elem_of_join. split.
  - intros (l & Hi & (name & -> & Hname)%list_elem_of_fmap).
    apply elem_of_indices_of in Hi. eauto.
  - intros (name & Hi & Hname). exists (indices_of name template).
    split; [by apply elem_of_indices_of|]. apply list_elem_of_fmap. eauto.
Qed.

(** An order of names followed by the slots of any other name lists the
    slots that pass [Q], each once, when [Q] holds of the ordered names. *)
Lemma ordered_indices_spec (order : list string) (Q : string → Prop)
    `{∀ s, Decision (Q s)} template :
  NoDup order → (∀ name, name ∈ order → Q name) →
  let out := mjoin ((λ name, indices_of name template) <$> order)
             ++ (filter (λ p, (p.2 ∉ order) ∧ Q p.2) (enumerate template)).*1 in
  NoDup out ∧ ∀ i, i ∈ out ↔ ∃ s, template !! i = Some s ∧ Q s.
Proof.
  intros Hnd HQ out. split.
  - apply NoDup_app. split_and!.
    + by apply indices_by_name_NoDup.
    + intros i (name & Hi & Hname)%elem_of_indices_by_name
        (s & Hs & Hout & _)%elem_of_enumerate_filter. simpl in *. congruence.
    + apply enumerate_filter_NoDup.
  - intros i. unfold out.
    rewrite elem_of_app, elem_of_indices_by_name, elem_of_enumerate_filter.
    simpl. split.
    + intros [(name & Hi & Hname)|(s & Hs & _ & Hq)]; eauto.
    + intros (s & Hs & Hq). destruct (decide (s ∈ order)); eauto.
Qed.

(** [_slot_priority_indices] lists every index of the template exactly
    once: it is a permutation of [range(len(template_slots))]. *)
Theorem slot_priority_indices_permutation (template_slots : list string) :
  _slot_priority_indices template_slots ≡ₚ seq 0 (length template_slots).
Proof.
  destruct (ordered_indices_spec priority_order (λ _, True) template_slots)
    as [Hnd Hin].
  { by apply (bool_decide_unpack _). }
  { done. }
  assert (Heq : _slot_priority_indices template_slots
                = mjoin ((λ name, indices_of name template_slots) <$> priority_order)
                  ++ (filter (λ p, (p.2 ∉ priority_order) ∧ True)
                        (enumerate template_slots)).*1).
  { unfold _slot_priority_indices. do 2 f_equal. apply list_filter_iff. tauto. }
  rewrite Heq. apply NoDup_Permutation; [done|apply NoDup_seq|].
  intros i. rewrite Hin, elem_of_seq. split.
  - intros (s & Hs%lookup_lt_Some & _). lia.
  - intros [_ Hi]. destruct (lookup_lt_is_Some_2 template_slots i) as [s Hs];
      [lia|eauto].
Qed.

(** Without hardcore focus [_flex_slot_indices] lists, each once, exactly
    the indices of the slots other than [tank] and [charm_tank]; with
    hardcore focus it lists, each once, exactly the indices of the [dps]
    slots. *)
Theorem flex_slot_indices_exact (template_slots : list string)
    (hardcore_required : bool) :
  NoDup (_flex_slot_indices template_slots hardcore_required)
  ∧ ∀ i, i ∈ _flex_slot_indices template_slots hardcore_required
         ↔ ∃ s, template_slots !! i = Some s
                ∧ if hardcore_required then s = "dps"
                  else s ≠ "tank" ∧ s ≠ "charm_tank".
Proof.
  unfold _flex_slot_indices. destruct hardcore_required.
  { split; [apply enumerate_filter_NoDup|]. intros i.
    rewrite elem_of_indices_of. split; [eauto|]. by intros (s & ? & ->). }
  case_bool_decide as Htpl.
  { subst. split; [by apply (bool_decide_unpack _)|]. intros i.
    rewrite elem_of_cons, list_elem_of_singleton. split.
    - intros [->| ->]; simpl; eauto.
    - intros (s & Hs & Ht & Hc).
      destruct i as [|[|[|i]]]; simplify_eq/=; auto. }
  destruct (ordered_indices_spec flex_order (λ s, s ∉ non_flex) template_slots)
    as [Hnd Hin].
  { by apply (bool_decide_unpack _). }
  { intros name Hname. unfold flex_order in Hname.
    repeat (apply elem_of_cons in Hname as [->|Hname]; [by vm_compute|]).
    by apply elem_of_nil in Hname. }
  split; [done|]. intros i. rewrite Hin. unfold non_flex.
  split; intros (s & Hs & Hq); exists s; (split; [done|]).
  - split; intros ->; apply Hq; by vm_compute.
  - rewrite not_elem_of_union, !not_elem_of_singleton. done.
Qed.

(** ** What slot forcing produces *)

Lemma build_requirement_sets_qualifying A rp rrs rc rph rk sat :
  Forall (λ req, req ⊆ CHARMERS ∪ PET_DPS ∪ KITERS)
    (_build_requirement_sets A rp rrs rc rph rk sat).
Proof.
  unfold _build_requirement_sets. apply Forall_forall.
  intros req [_ Hreq]%list_elem_of_filter. revert Hreq.
  repeat (destruct (_ && negb _)); simpl; intros Hreq;
    repeat (apply elem_of_cons in Hreq as [->|Hreq];
            [intros c [Hc _]%elem_of_intersection;
             rewrite !elem_of_union; by auto|]);
    by apply elem_of_nil in Hreq.
Qed.

Lemma build_requirement_sets_length A rp rrs rc rph rk sat :
  length (_build_requirement_sets A rp rrs rc rph rk sat) ≤ 3.
Proof.
  unfold _build_requirement_sets. etrans; [apply length_filter|].
  repeat (destruct (_ && negb _)); simpl; lia.
Qed.

Lemma force_loop_nonempty reqs slots forced :
  map_Forall (λ _ pool, pool ≠ (∅ : gset string)) forced →
  map_Forall (λ _ pool, pool ≠ (∅ : gset string)) (force_loop reqs slots forced).
Proof.
  revert reqs forced.
  induction slots as [|s slots IH]; intros reqs forced Hforced; simpl; [done|].
  case_bool_decide; [done|].
  destruct (_best_intersection_group reqs) as [pool idxs].
  destruct (bool_decide (idxs = [])); simpl; [done|].
  destruct (nonempty pool) eqn:Hne; simpl; [|done].
  apply IH, map_Forall_insert_2; [|done].
  by apply bool_decide_eq_true in Hne.
Qed.

Lemma elem_of_combinations {A} k (l : list A) c :
  c ∈ Py.combinations k l → c ⊆ l ∧ length c = k.
Proof.
  revert k c. induction l as [|x l IH]; intros [|k] c; simpl.
  - intros ->%list_elem_of_singleton. by split.
  - by intros ?%elem_of_nil.
  - intros ->%list_elem_of_singleton. split; [|done]. by intros ? ?%elem_of_nil.
  - intros [(c' & -> & Hc')%list_elem_of_fmap|Hc]%elem_of_app.
    + apply IH in Hc' as [Hsub <-]. split; [|done].
      intros y [->|Hy]%elem_of_cons; apply elem_of_cons; auto.
    + apply IH in Hc as [Hsub <-]. split; [|done].
      intros y Hy. apply elem_of_cons. auto.
Qed.

Lemma consider_in_range reqs best idxs :
  Forall (λ j, j < length reqs) idxs → in_range (length reqs) best →
  in_range (length reqs) (consider reqs best idxs).
Proof.
  intros Hidxs Hbest. unfold consider.
  repeat (case_bool_decide || destruct (negb _) || destruct (_ && _)); done.
Qed.

Lemma scan_in_range reqs combos best :
  Forall (Forall (λ j, j < length reqs)) combos →
  in_range (length reqs) best →
  in_range (length reqs) (foldl (consider reqs) best combos).
Proof.
  intros Hcombos. revert best.
  induction Hcombos as [|idxs combos Hidxs _ IH]; intros best Hbest; simpl;
    [done|]. by apply IH, consider_in_range.
Qed.

Lemma combinations_in_range k n :
  Forall (Forall (λ j, j < n)) (Py.combinations k (seq 0 n)).
Proof.
  apply Forall_forall. intros c [Hsub _]%elem_of_combinations.
  apply Forall_forall. intros j Hj%Hsub%elem_of_seq. lia.
Qed.

Lemma scan_sizes_in_range reqs ks best :
  in_range (length reqs) best → in_range (length reqs) (scan_sizes reqs ks best).
Proof.
  revert best. induction ks as [|k ks IH]; intros best Hbest; simpl; [done|].
  case_bool_decide; [|apply IH];
    by apply scan_in_range; [apply combinations_in_range|].
Qed.

Lemma best_intersection_group_in_range reqs :
  in_range (length reqs) (_best_intersection_group reqs).
Proof. apply scan_sizes_in_range. constructor. Qed.

Lemma foldl_delete_length (reqs : list (gset string)) js :
  length (foldl (λ reqs i, delete i reqs) reqs js) ≤ length reqs.
Proof.
  revert reqs. induction js as [|j js IH]; intros reqs; simpl; [done|].
  etrans; [apply IH|].
  rewrite delete_take_drop, length_app, length_take, length_drop. lia.
Qed.

(** Deleting a chosen group removes at least one requirement. *)
Lemma delete_all_shorter idxs (reqs : list (gset string)) :
  idxs ≠ [] → Forall (λ j, j < length reqs) idxs →
  length (delete_all idxs reqs) < length reqs.
Proof.
  intros Hne Hidxs. unfold delete_all.
  assert (Hsorted : Forall (λ j, j < length reqs) (Py.sort_desc Z.of_nat idxs)).
  { by rewrite sort_desc_perm. }
  assert (Hlen : length (Py.sort_desc Z.of_nat idxs) = length idxs)
    by apply length_sort_desc.
  destruct (Py.sort_desc Z.of_nat idxs) as [|j js]; simpl in *.
  { by destruct idxs. }
  inversion_clear Hsorted as [|?? Hj _].
  eapply Nat.le_lt_trans; [apply foldl_delete_length|].
  rewrite length_delete by by apply lookup_lt_is_Some_2. lia.
Qed.

Lemma force_loop_size reqs slots forced :
  size (force_loop reqs slots forced) ≤ size forced + length reqs.
Proof.
  revert reqs forced.
  induction slots as [|s slots IH]; intros reqs forced; simpl; [lia|].
  case_bool_decide; [lia|].
  pose proof (best_intersection_group_in_range reqs) as Hrange.
  destruct (_best_intersection_group reqs) as [pool idxs].
  unfold in_range in Hrange. simpl in Hrange.
  case_bool_decide as Hidxs; simpl; [lia|].
  destruct (negb (nonempty pool)); [lia|].
  etrans; [apply IH|].
  pose proof (delete_all_shorter idxs reqs Hidxs Hrange).
  assert (size (<[s:=pool]> forced) ≤ S (size forced)); [|lia].
  destruct (forced !! s) eqn:Hs.
  - rewrite map_size_insert_Some by eauto. lia.
  - by rewrite map_size_insert_None.
Qed.

(** Slot forcing restricts at most three slots; every forced pool is
    non-empty and holds only available classes that are charmers, pet-DPS
    classes or kiters; and the [require_ports] and [require_run_speed] flags
    have no effect on it. *)
Theorem force_constraints_pools_spec
    (template_slots available : list string)
    (require_ports require_run_speed require_charm require_pet_heavy
       require_kiting : bool)
    (already_satisfied : gset string) (hardcore_required : bool) :
  let forced :=
    force_constraints_into_slots template_slots available require_ports
      require_run_speed require_charm require_pet_heavy require_kiting
      already_satisfied hardcore_required in
  size forced ≤ 3
  ∧ map_Forall (λ _ pool,
      pool ≠ ∅
      ∧ ∀ c, c ∈ pool → c ∈ available ∧ c ∈ CHARMERS ∪ PET_DPS ∪ KITERS) forced
  ∧ ∀ ports run_speed,
      force_constraints_into_slots template_slots available ports run_speed
        require_charm require_pet_heavy require_kiting already_satisfied
        hardcore_required = forced.
Proof.
  intros forced.
  assert (Hq : map_Forall (λ _ pool, pool ⊆ CHARMERS ∪ PET_DPS ∪ KITERS) forced).
  { unfold forced, force_constraints_into_slots.
    repeat case_bool_decide; try apply map_Forall_empty.
    apply force_loop_pools;
      [apply build_requirement_sets_qualifying|apply map_Forall_empty]. }
  assert (Hne : map_Forall (λ _ pool, pool ≠ (∅ : gset string)) forced).
  { unfold forced, force_constraints_into_slots.
    repeat case_bool_decide; try apply map_Forall_empty.
    apply force_loop_nonempty, map_Forall_empty. }
  split_and!; [| |done].
  - unfold forced, force_constraints_into_slots.
    repeat case_bool_decide; rewrite ?map_size_empty; try lia.
    etrans; [apply force_loop_size|]. rewrite map_size_empty.
    apply build_requirement_sets_length.
  - intros i pool Hi. split; [by eapply Hne|].
    intros c Hc. split.
    + apply elem_of_set_of. by eapply force_constraints_pools.
    + by eapply Hq.
Qed.

(** ** When slot forcing acts *)

Lemma consider_keeps reqs best idxs :
  best.2 ≠ [] → (consider reqs best idxs).2 ≠ [].
Proof.
  intros Hbest. unfold consider.
  destruct (negb _); [done|].
  case_bool_decide as Hlt; simpl.
  { intros ->. simpl in Hlt. lia. }
  destruct (bool_decide (length idxs = length best.2) && _) eqn:Heq; [|done].
  apply andb_true_iff in Heq as [Hlen%bool_decide_eq_true _].
  case_bool_decide; simpl; [|done].
  intros ->. simpl in Hlen. by destruct best.2.
Qed.

Lemma consider_found reqs best idxs :
  idxs ≠ [] → inter_of reqs idxs ≠ ∅ → (consider reqs best idxs).2 ≠ [].
Proof.
  intros Hidxs Hinter. unfold consider.
  rewrite (bool_decide_eq_true_2 _ Hinter : nonempty _ = true). simpl.
  case_bool_decide as Hlt; simpl; [done|].
  assert (best.2 ≠ []) as Hbest.
  { intros Hnil. rewrite Hnil in Hlt. destruct idxs; simpl in *; [done|lia]. }
  destruct (bool_decide (length idxs = length best.2) && _); [|done].
  by case_bool_decide.
Qed.

Lemma consider_pool reqs best idxs :
  (best.2 ≠ [] → best.1 ≠ ∅) →
  (consider reqs best idxs).2 ≠ [] → (consider reqs best idxs).1 ≠ ∅.
Proof.
  intros Hbest. unfold consider.
  destruct (nonempty (inter_of reqs idxs)) eqn:Hne; simpl; [|done].
  apply bool_decide_eq_true in Hne.
  repeat (case_bool_decide || destruct (_ && _)); simpl; auto.
Qed.

Lemma scan_keeps reqs combos best :
  best.2 ≠ [] → (foldl (consider reqs) best combos).2 ≠ [].
Proof.
  revert best. induction combos as [|idxs combos IH]; intros best Hbest; simpl;
    [done|]. by apply IH, consider_keeps.
Qed.

Lemma scan_found reqs combos best idxs :
  idxs ∈ combos → idxs ≠ [] → inter_of reqs idxs ≠ ∅ →
  (foldl (consider reqs) best combos).2 ≠ [].
Proof.
  intros Hin Hidxs Hinter. revert best.
  induction combos as [|c combos IH]; intros best; simpl.
  { by apply elem_of_nil in Hin. }
  apply elem_of_cons in Hin as [<-|Hin]; [|by apply IH].
  by apply scan_keeps, consider_found.
Qed.

Lemma scan_pool reqs combos best :
  (best.2 ≠ [] → best.1 ≠ ∅) →
  (foldl (consider reqs) best combos).2 ≠ [] →
  (foldl (consider reqs) best combos).1 ≠ ∅.
Proof.
  revert best. induction combos as [|c combos IH]; intros best Hbest; simpl;
    [done|]. by apply IH, consider_pool.
Qed.

Lemma scan_sizes_pool reqs ks best :
  (best.2 ≠ [] → best.1 ≠ ∅) →
  (scan_sizes reqs ks best).2 ≠ [] → (scan_sizes reqs ks best).1 ≠ ∅.
Proof.
  revert best. induction ks as [|k ks IH]; intros best Hbest; simpl; [done|].
  destruct (bool_decide _); [|apply IH]; by apply scan_pool.
Qed.

Lemma scan_sizes_found reqs ks best k idxs :
  k ∈ ks → idxs ∈ Py.combinations k (seq 0 (length reqs)) →
  idxs ≠ [] → inter_of reqs idxs ≠ ∅ →
  (scan_sizes reqs ks best).2 ≠ [].
Proof.
  intros Hk Hin Hidxs Hinter. revert best.
  induction ks as [|k' ks IH]; intros best; simpl.
  { by apply elem_of_nil in Hk. }
  destruct (bool_decide _) eqn:Hfound;
    [by apply bool_decide_eq_true in Hfound|].
  apply elem_of_cons in Hk as [->|Hk]; [|by apply IH].
  apply bool_decide_eq_false in Hfound. destruct Hfound.
  by eapply scan_found.
Qed.

(** A non-empty list of non-empty requirement sets always yields a group. *)
Lemma best_intersection_group_found req reqs :
  req ≠ ∅ →
  (_best_intersection_group (req :: reqs)).2 ≠ []
  ∧ (_best_intersection_group (req :: reqs)).1 ≠ ∅.
Proof.
  intros Hreq.
  assert ((_best_intersection_group (req :: reqs)).2 ≠ []) as Hidxs.
  { unfold _best_intersection_group.
    apply (scan_sizes_found _ _ _ 1 [0]); [| |done|done].
    - apply elem_of_cons. right. apply elem_of_cons. right.
      apply elem_of_cons. by left.
    - simpl. apply elem_of_app. left. apply list_elem_of_fmap. exists [].
      split; [done|]. destruct (seq 1 (length reqs)); by apply elem_of_cons; left. }
  split; [done|]. by apply scan_sizes_pool.
Qed.

Lemma force_loop_keeps reqs slots forced i :
  is_Some (forced !! i) → is_Some (force_loop reqs slots forced !! i).
Proof.
  revert reqs forced.
  induction slots as [|s slots IH]; intros reqs forced Hi; simpl; [done|].
  case_bool_decide; [done|].
  destruct (_best_intersection_group reqs) as [pool idxs].
  destruct (_ || _); [done|]. apply IH. rewrite lookup_insert.
  by case_decide.
Qed.

Lemma force_loop_first req reqs i slots forced :
  req ≠ ∅ → is_Some (force_loop (req :: reqs) (i :: slots) forced !! i).
Proof.
  intros Hreq. simpl.
  destruct (best_intersection_group_found req reqs Hreq) as [Hidxs Hpool].
  destruct (_best_intersection_group (req :: reqs)) as [pool idxs].
  simpl in *.
  rewrite (bool_decide_eq_false_2 _ Hidxs).
  rewrite (bool_decide_eq_true_2 _ Hpool : nonempty pool = true). simpl.
  apply force_loop_keeps. rewrite lookup_insert_eq. eauto.
Qed.

Lemma build_requirement_sets_active available rp rrs rc rph rk sat :
  active_requirement available rc rph rk sat →
  ∃ req reqs,
    _build_requirement_sets (set_of available) rp rrs rc rph rk sat = req :: reqs
    ∧ req ≠ ∅.
Proof.
  intros Hact.
  assert (∃ req, req ∈ _build_requirement_sets (set_of available) rp rrs rc
                         rph rk sat) as [req Hreq].
  { unfold _build_requirement_sets.
    destruct Hact as [(-> & Hsat & c & HS & Hc)|[(-> & Hsat & c & HS & Hc)|
                      (-> & Hsat & c & HS & Hc)]];
      [exists (CHARMERS ∩ set_of available)
      |exists (PET_DPS ∩ set_of available)
      |exists (KITERS ∩ set_of available)];
      (apply list_elem_of_filter; split;
       [intros Hempty; apply (not_elem_of_empty (C:=gset string) c);
        rewrite <-Hempty; apply elem_of_intersection;
        by rewrite elem_of_set_of|]);
      rewrite (proj2 (nonempty_false _) Hsat); simpl;
      repeat (destruct (_ && negb _)); simpl;
      rewrite ?elem_of_cons; auto 6. }
  destruct (_build_requirement_sets _ _ _ _ _ _ _) as [|r rs] eqn:Hreqs.
  { by apply elem_of_nil in Hreq. }
  exists r, rs. split; [done|].
  assert (r ∈ r :: rs) as Hr by (apply elem_of_cons; by left).
  rewrite <-Hreqs in Hr. unfold _build_requirement_sets in Hr.
  by apply list_elem_of_filter in Hr as [? _].
Qed.

(** Whenever a charm, pet-heavy or kiting requirement is active and the
    template has a slot open to forcing, the first such slot is forced. *)
Theorem force_constraints_forces_first_flex_slot
    (template_slots available : list string)
    (require_ports require_run_speed require_charm require_pet_heavy
       require_kiting : bool)
    (already_satisfied : gset string) (hardcore_required : bool)
    (i : nat) (rest : list nat) :
  active_requirement available require_charm require_pet_heavy require_kiting
    already_satisfied →
  _flex_slot_indices template_slots hardcore_required = i :: rest →
  is_Some (force_constraints_into_slots template_slots available require_ports
             require_run_speed require_charm require_pet_heavy require_kiting
             already_satisfied hardcore_required !! i).
Proof.
  intros Hact Hflex. unfold force_constraints_into_slots.
  destruct (build_requirement_sets_active available require_ports
              require_run_speed require_charm require_pet_heavy require_kiting
              already_satisfied Hact) as (req & reqs & -> & Hreq).
  rewrite Hflex. rewrite !bool_decide_eq_false_2 by done.
  by apply force_loop_first.
Qed.

(** The 4-box request for a charm group: Enchanter is available. *)
Lemma force_constraints_forces_first_flex_slot_witness :
  is_Some (force_constraints_into_slots ["tank"; "healer"; "slow"; "dps"]
             ["Cleric"; "Enchanter"; "Warrior"] false false true false false
             ∅ false !! 1).
Proof.
  apply (force_constraints_forces_first_flex_slot _ _ _ _ _ _ _ _ _ 1 [2; 3]).
  - left. split_and!; [reflexivity|by vm_compute|].
    exists "Enchanter". split; by apply (bool_decide_unpack _).
  - by vm_compute.
Defined.

Lemma force_loop_no_reqs slots forced : force_loop [] slots forced = forced.
Proof. by destruct slots. Qed.

(** When charm is the only requirement that forcing acts on, Enchanter is
    available and not yet in every comp, exactly one slot is forced, the
    first slot open to forcing, and its pool is Enchanter alone. *)
Theorem charm_only_forces_enchanter
    (template_slots available : list string)
    (require_ports require_run_speed : bool)
    (already_satisfied : gset string) (hardcore_required : bool)
    (i : nat) (rest : list nat) :
  "Enchanter" ∈ available → "Enchanter" ∉ already_satisfied →
  _flex_slot_indices template_slots hardcore_required = i :: rest →
  force_constraints_into_slots template_slots available require_ports
    require_run_speed true false false already_satisfied hardcore_required
  = {[ i := {[ "Enchanter" ]} ]}.
Proof.
  intros Havail Hsat Hflex.
  assert (Hreqs : _build_requirement_sets (set_of available) require_ports
                    require_run_speed true false false already_satisfied
                  = [{[ "Enchanter" ]}]).
  { unfold _build_requirement_sets. simpl.
    assert (CHARMERS ∩ already_satisfied = ∅) as Hempty.
    { apply set_eq. intros c. unfold CHARMERS.
      rewrite elem_of_intersection, elem_of_singleton.
      split; [intros [-> ?]; done|by intros ?%elem_of_empty]. }
    rewrite (proj2 (nonempty_false _) Hempty). simpl.
    assert (CHARMERS ∩ set_of available = {[ "Enchanter" ]}) as ->.
    { apply set_eq. intros c. unfold CHARMERS.
      rewrite elem_of_intersection, elem_of_singleton, elem_of_set_of.
      split; [by intros [-> _]|by intros ->]. }
    by vm_compute. }
  unfold force_constraints_into_slots. rewrite Hreqs, Hflex.
  rewrite !bool_decide_eq_false_2 by done. simpl.
  assert (_best_intersection_group [{[ "Enchanter" ]}]
          = ({[ "Enchanter" ]}, [0])) as -> by by vm_compute.
  assert (nonempty {[ "Enchanter" ]} = true) as -> by by vm_compute.
  rewrite bool_decide_eq_false_2 by done. simpl.
  assert (delete_all [0] [({[ "Enchanter" ]} : gset string)] = []) as ->
    by by vm_compute.
  by rewrite force_loop_no_reqs.
Qed.

(** In a 4-box charm request it is the [healer] slot that is forced. *)
Lemma charm_only_forces_enchanter_witness :
  force_constraints_into_slots ["tank"; "healer"; "slow"; "dps"]
    ["Cleric"; "Enchanter"; "Warrior"] false false true false false ∅ false
  = {[ 1 := {[ "Enchanter" ]} ]}.
Proof.
  apply (charm_only_forces_enchanter _ _ _ _ _ _ 1 [2; 3]).
  - by apply (bool_decide_unpack _).
  - by apply (bool_decide_unpack _).
  - by vm_compute.
Defined.

(** ** The shape of the returned list *)

Section loop_facts.
Context (r : request).

Lemma visit_inv st picks st' :
  visit r st picks = Some st' → loop_inv r st → loop_inv r st'.
Proof.
  unfold visit. intros Hvisit (Hnd & Hseen & Hscored).
  destruct (skip_duplicates r picks); [by simplify_eq|].
  case_bool_decide as Hin; [by simplify_eq|].
  assert (Hgrow : loop_inv r (st.1, {[picks]} ∪ st.2)).
  { split_and!; simpl; [done| |done]. intros x Hx%Hseen.
    apply elem_of_union. by right. }
  destruct (negb (comp_matches_filters _ _ _)); [by simplify_eq|].
  destruct (negb (comp_matches_constraints _ _ _ _ _ _)); [by simplify_eq|].
  destruct (score_request r picks) as [[score d]|] eqn:Hscore; simpl in Hvisit;
    [|done].
  injection Hvisit as <-. split_and!; simpl.
  - rewrite fmap_app. apply NoDup_app. split_and!; [done| |].
    + intros c (x & -> & Hx)%list_elem_of_fmap Hc%list_elem_of_singleton.
      change (comp_of x = picks) in Hc. apply Hin. rewrite <-Hc. by apply Hseen.
    + apply NoDup_singleton.
  - intros x [Hx|Hx]%elem_of_app.
    + apply elem_of_union. right. by apply Hseen.
    + apply list_elem_of_singleton in Hx as ->.
      apply elem_of_union. left. by apply elem_of_singleton.
  - apply Forall_app. split; [done|]. constructor; [|done].
    exists d. by split.
Qed.

Lemma visit_all_inv l st st' :
  visit_all r st l = Some st' → loop_inv r st → loop_inv r st'.
Proof.
  revert st. induction l as [|picks l IH]; intros st; simpl.
  { by intros [= <-]. }
  destruct (visit r st picks) as [st1|] eqn:Hvisit; simpl; [|done].
  intros Hall Hinv. eapply IH; [done|]. by eapply visit_inv.
Qed.

(** The generator returns the head of the sorted results of a loop that
    keeps the invariant. *)
Lemma generate_run :
  ∃ st, loop_inv r st
        ∧ generate_scored_recommendations r
          = Some (Py.slice_to (Py.sort_desc score_of st.1) (limit r)).
Proof.
  destruct (generate_accepted r) as (res & Hres & _).
  unfold generate_scored_recommendations in *.
  destruct (visit_all r ([], ∅) (Py.product (slot_pools r))) as [st|] eqn:Hst;
    simpl in *; [|done].
  exists st. split; [|done]. eapply visit_all_inv; [done|].
  split_and!; simpl; [constructor|by intros ? ?%elem_of_nil|constructor].
Qed.
End loop_facts.

Lemma Sorted_take {A} (R : relation A) l k : Sorted R l → Sorted R (take k l).
Proof.
  intros Hl. revert k. induction Hl as [|x l Hl IH Hhd]; intros [|k]; simpl;
    try constructor; [apply IH|].
  destruct Hhd as [|y l']; [destruct k; constructor|].
  destruct k; constructor; done.
Qed.

(** No comp is returned twice. *)
Theorem generated_comps_are_distinct (r : request) :
  ∃ res, generate_scored_recommendations r = Some res
         ∧ NoDup (comp_of <$> res).
Proof.
  destruct (generate_run r) as (st & (Hnd & _) & Hres).
  eexists. split; [done|].
  destruct (slice_to_take (Py.sort_desc score_of st.1) (limit r)) as [k ->].
  apply (sublist_NoDup _ (comp_of <$> Py.sort_desc score_of st.1)).
  - by rewrite sort_desc_perm.
  - apply fmap_sublist, sublist_take.
Qed.

(** The returned list is in non-increasing order of score and, for a
    non-negative [limit], has at most [limit] entries. *)
Theorem generated_list_sorted_and_capped (r : request) :
  ∃ res, generate_scored_recommendations r = Some res
         ∧ Sorted (desc score_of) res
         ∧ ((0 ≤ limit r)%Z → length res ≤ Z.to_nat (limit r)).
Proof.
  destruct (generate_run r) as (st & _ & Hres).
  eexists. split; [done|]. split.
  - destruct (slice_to_take (Py.sort_desc score_of st.1) (limit r)) as [k ->].
    apply Sorted_take, sort_desc_sorted.
  - intros Hlimit. unfold Py.slice_to.
    rewrite (proj2 (Z.ltb_ge _ _) Hlimit), length_take. lia.
Qed.

(** Every returned tuple holds one class per template slot, the score the
    scorer gives that comp, and the scorer's explanation exactly when
    [return_explain] is set. *)
Theorem generated_tuples_are_scored (r : request) :
  ∃ res, generate_scored_recommendations r = Some res
         ∧ Forall (λ x, length (comp_of x) = length (template_slots r)
                        ∧ scored_by r x) res.
Proof.
  destruct (generate_run r) as (st & (_ & _ & Hscored) & Hres).
  destruct (generate_accepted r) as (res & Hres' & Hacc).
  exists res. split; [done|]. rewrite Hres in Hres'. injection Hres' as <-.
  apply Forall_forall. intros x Hx. split.
  - rewrite Forall_forall in Hacc. destruct (Hacc x Hx) as (Hp%product_length & _).
    by rewrite Hp, length_slot_pools.
  - apply elem_of_slice_to, elem_of_sort_desc in Hx.
    rewrite Forall_forall in Hscored. by apply Hscored.
Qed.

(** ** The [limit] and [return_explain] arguments *)

Lemma visit_all_with_limit r n st l :
  visit_all (with_limit r n) st l = visit_all r st l.
Proof.
  revert st. induction l as [|picks l IH]; intros st; simpl; [done|].
  change (visit (with_limit r n) st picks) with (visit r st picks).
  destruct (visit r st picks); simpl; [apply IH|done].
Qed.

(** One ranked list stands behind every [limit]: the generator returns
    [full[:limit]] of a list [full] that does not depend on [limit], also
    for a negative [limit], which cuts entries off the end. *)
Theorem limit_slices_one_ranking (r : request) :
  ∃ full, ∀ n,
    generate_scored_recommendations (with_limit r n)
    = Some (Py.slice_to full n).
Proof.
  destruct (generate_run r) as (st & _ & Hres).
  unfold generate_scored_recommendations in Hres.
  destruct (visit_all r ([], ∅) (Py.product (slot_pools r))) as [st'|] eqn:Hst;
    simpl in Hres; [|done].
  exists (Py.sort_desc score_of st'.1). intros n.
  unfold generate_scored_recommendations.
  change (slot_pools (with_limit r n)) with (slot_pools r).
  by rewrite visit_all_with_limit, Hst.
Qed.

Section sort_fmap.
Context {A B : Type} (f : A → B) (key : A → Z) (key' : B → Z).
Context (Hkey : ∀ x, key' (f x) = key x).

Lemma insert_desc_fmap x l :
  f <$> Py.insert_desc key x l = Py.insert_desc key' (f x) (f <$> l).
Proof.
  induction l as [|y l IH]; csimpl; [done|]. rewrite !Hkey.
  destruct (key x <? key y)%Z; csimpl; [|done]. by rewrite IH.
Qed.

Lemma sort_desc_fmap l :
  f <$> Py.sort_desc key l = Py.sort_desc key' (f <$> l).
Proof.
  induction l as [|x l IH]; csimpl; [done|].
  by rewrite insert_desc_fmap, IH.
Qed.
End sort_fmap.

Lemma slice_to_fmap {A B} (f : A → B) l n :
  f <$> Py.slice_to l n = Py.slice_to (f <$> l) n.
Proof.
  unfold Py.slice_to. rewrite length_fmap.
  destruct (n <? 0)%Z; by rewrite fmap_take.
Qed.

Lemma visit_with_explain r b st st0 picks :
  st.2 = st0.2 → strip <$> st.1 = strip <$> st0.1 →
  match visit (with_explain r b) st picks, visit r st0 picks with
  | Some a, Some a0 => a.2 = a0.2 ∧ strip <$> a.1 = strip <$> a0.1
  | None, None => True
  | _, _ => False
  end.
Proof.
  intros Hseen Hres. unfold visit.
  change (skip_duplicates (with_explain r b) picks)
    with (skip_duplicates r picks).
  change (score_request (with_explain r b) picks) with (score_request r picks).
  simpl. rewrite Hseen.
  destruct (skip_duplicates r picks); [done|].
  case_bool_decide; [done|].
  destruct (negb (comp_matches_filters _ _ _)); [done|].
  destruct (negb (comp_matches_constraints _ _ _ _ _ _)); [done|].
  destruct (score_request r picks) as [[score d]|]; simpl; [|done].
  split; [done|]. by rewrite !fmap_app, Hres.
Qed.

Lemma visit_all_with_explain r b l st st0 :
  st.2 = st0.2 → strip <$> st.1 = strip <$> st0.1 →
  match visit_all (with_explain r b) st l, visit_all r st0 l with
  | Some a, Some a0 => a.2 = a0.2 ∧ strip <$> a.1 = strip <$> a0.1
  | None, None => True
  | _, _ => False
  end.
Proof.
  revert st st0. induction l as [|picks l IH]; intros st st0 Hseen Hres; simpl.
  { done. }
  pose proof (visit_with_explain r b st st0 picks Hseen Hres) as Hstep.
  destruct (visit (with_explain r b) st picks) as [a|],
    (visit r st0 picks) as [a0|]; simpl; try done.
  destruct Hstep. by apply IH.
Qed.

(** The scores, the comps and their order do not depend on
    [return_explain]. *)
Theorem return_explain_keeps_ranking (r : request) (b : bool) :
  fmap (M := list) strip <$> generate_scored_recommendations (with_explain r b)
  = fmap (M := list) strip <$> generate_scored_recommendations r.
Proof.
  unfold generate_scored_recommendations.
  change (slot_pools (with_explain r b)) with (slot_pools r).
  pose proof (visit_all_with_explain r b (Py.product (slot_pools r))
                ([], ∅) ([], ∅) eq_refl eq_refl) as Hrun.
  destruct (visit_all (with_explain r b) _ _) as [a|],
    (visit_all r _ _) as [a0|]; simpl; try done.
  destruct Hrun as [_ Hrun]. f_equal.
  rewrite !slice_to_fmap.
  rewrite !(sort_desc_fmap strip score_of fst) by done.
  by rewrite Hrun.
Qed.

(** ** Must-include classes *)

(** A required class that is excluded or not available leaves nothing to
    return. *)
Theorem unsatisfiable_must_include_gives_nothing (r : request) (m : string) :
  m ∈ must_include r → m ∈ exclude r ∨ m ∉ available r →
  generate_scored_recommendations r = Some [].
Proof.
  intros Hm Hbad. destruct (generate_accepted r) as (res & -> & Hacc).
  f_equal. destruct res as [|x res]; [done|]. exfalso.
  inversion_clear Hacc as [|?? (Hprod%elem_of_product & _ & Hf & _) _].
  apply comp_matches_filters_true in Hf as [Hex Hmust].
  specialize (Hmust m Hm). destruct Hbad as [Hx|Hna].
  - by apply (Hex m).
  - apply Hna. apply list_elem_of_lookup in Hmust as [i Hi].
    destruct (Forall2_lookup_l _ _ _ _ _ Hprod Hi) as (pool & Hpool & Hin).
    exact (Forall_lookup_1 _ _ _ _ (slot_pools_available r) Hpool m Hin).
Qed.

(** An instance: Cleric is required and excluded at once. *)
Lemma unsatisfiable_must_include_gives_nothing_witness :
  generate_scored_recommendations
    {| ratings := ratings_ex; era := "classic";
       available := ["Bard"; "Cleric"; "Paladin"; "Shaman"; "Warrior"; "Wizard"];
       template_slots := ["tank"; "healer"; "dps"];
       boxing_mode := "manual"; start := "assisted";
       must_include := ["Cleric"]; exclude := {[ "Cleric" ]};
       require_ports := false; require_run_speed := false;
       require_charm := false; require_pet_heavy := false;
       require_kiting := false; hardcore_required := false; limit := 15;
       return_explain := false |} = Some [].
Proof.
  apply (unsatisfiable_must_include_gives_nothing _ "Cleric").
  - by apply (bool_decide_unpack _).
  - left. by apply (bool_decide_unpack _).
Defined.

(** *** Where a required class is added *)

Lemma first_typed_slot_lookup types template excluded i :
  first_typed_slot types template excluded = Some i →
  ∃ s, template !! i = Some s ∧ s ∈ types ∧ i ∉ excluded.
Proof.
  induction types as [|ty types IH]; simpl; [done|].
  destruct (first_index _ template) as [j|] eqn:Hj.
  - intros [= <-]. apply first_index_Some in Hj as (s & Hs & Hty & Hfree).
    simpl in *. exists s. split_and!; [done| |done]. subst. by left.
  - intros (s & ? & ? & ?)%IH. exists s. split_and!; [done| |done]. by right.
Qed.

Lemma first_typed_slot_None types template excluded j s :
  first_typed_slot types template excluded = None →
  template !! j = Some s → s ∈ types → j ∈ excluded.
Proof.
  induction types as [|ty types IH]; simpl; [by intros _ _ ?%elem_of_nil|].
  destruct (first_index _ template) as [i|] eqn:Hi; [done|].
  intros Hnone Hj [->|Hin]%elem_of_cons; [|by apply IH].
  pose proof (first_index_None _ _ _ _ Hi Hj) as Hnot. simpl in Hnot.
  destruct (decide (j ∈ excluded)); [done|]. by destruct Hnot.
Qed.

Lemma best_slot_index_lt cls template excluded :
  template ≠ [] →
  _best_slot_index_for_must_include cls template excluded < length template.
Proof.
  intros Hne. unfold _best_slot_index_for_must_include.
  destruct (first_typed_slot _ _ _) as [i|] eqn:Hi.
  { apply first_typed_slot_lookup in Hi as (s & Hs & _).
    by eapply lookup_lt_Some. }
  destruct (first_index _ template) as [i|] eqn:Hi'.
  { apply first_index_Some in Hi' as (s & Hs & _). by eapply lookup_lt_Some. }
  destruct template; [done|]. simpl. lia.
Qed.

(** The slot a required class is added to: a slot of the template when the
    template has one; a slot outside [excluded] when there is one; and a
    slot of one of the types of the class when such a slot is outside
    [excluded]. *)
Theorem must_include_slot_choice
    (cls : string) (template : list string) (excluded : gset nat) :
  let idx := _best_slot_index_for_must_include cls template excluded in
  (template ≠ [] → idx < length template)
  ∧ (∀ j s, template !! j = Some s → j ∉ excluded → idx ∉ excluded)
  ∧ (∀ j s, template !! j = Some s → j ∉ excluded →
            s ∈ slot_types_for_class cls →
            ∃ s', template !! idx = Some s' ∧ s' ∈ slot_types_for_class cls)
  ∧ (template = [] → idx = 0).
Proof.
  simpl. unfold _best_slot_index_for_must_include. split_and!.
  - apply best_slot_index_lt.
  - intros j s Hj Hfree. destruct (first_typed_slot _ _ _) as [i|] eqn:Hi.
    { by eapply first_typed_slot_Some. }
    destruct (first_index _ template) as [i|] eqn:Hi'.
    { by apply first_index_Some in Hi' as (? & _ & ?). }
    by destruct (first_index_None _ _ _ _ Hi' Hj).
  - intros j s Hj Hfree Hty. destruct (first_typed_slot _ _ _) as [i|] eqn:Hi.
    { apply first_typed_slot_lookup in Hi as (s' & ? & ? & _). eauto. }
    destruct Hfree. exact (first_typed_slot_None _ _ _ _ _ Hi Hj Hty).
  - intros ->.
    assert (first_typed_slot (slot_types_for_class cls) [] excluded = None)
      as -> by (by induction (slot_types_for_class cls)).
    done.
Qed.

(** *** Required classes reach a pool *)

Section inject_facts.
Context (r : request).

Lemma length_inject pools cls : length (inject r pools cls) = length pools.
Proof.
  unfold inject.
  repeat (case_bool_decide || destruct (_ || _)); try done.
  apply length_alter.
Qed.

Lemma inject_keeps pools c cls :
  Exists (λ pool, c ∈ pool) pools →
  Exists (λ pool, c ∈ pool) (inject r pools cls).
Proof.
  intros Hex. unfold inject.
  repeat (case_bool_decide || destruct (_ || _)); try done.
  apply Exists_exists in Hex as (pool & [k Hk]%list_elem_of_lookup & Hc).
  apply Exists_exists.
  destruct (decide
    (_best_slot_index_for_must_include cls (template_slots r)
       (dom (hardcore_forced r)) = k)) as [Heq|Hne].
  - eexists. split.
    + eapply list_elem_of_lookup_2. rewrite Heq, list_lookup_alter_eq, Hk.
      done.
    + simpl. case_bool_decide; [done|]. apply elem_of_app. by left.
  - exists pool. split; [|done]. eapply list_elem_of_lookup_2.
    by rewrite list_lookup_alter_ne.
Qed.

Lemma inject_adds pools cls :
  length pools = length (template_slots r) → template_slots r ≠ [] →
  cls ∈ available r → cls ∉ exclude r →
  Exists (λ pool, cls ∈ pool) (inject r pools cls).
Proof.
  intros Hlen Hne Hav Hex. unfold inject.
  assert (mem cls (available_set r) = true) as ->
    by by apply mem_true, elem_of_set_of.
  assert (mem cls (exclude r) = false) as ->
    by (unfold mem; by apply bool_decide_eq_false).
  simpl. case_bool_decide; [done|].
  pose proof (best_slot_index_lt cls (template_slots r)
                (dom (hardcore_forced r)) Hne) as Hidx.
  rewrite <-Hlen in Hidx.
  rewrite bool_decide_eq_true_2 by done.
  destruct (lookup_lt_is_Some_2 _ _ Hidx) as [pool Hpool].
  apply Exists_exists. eexists. split.
  - eapply list_elem_of_lookup_2. by rewrite list_lookup_alter_eq, Hpool.
  - simpl. case_bool_decide; [done|]. apply elem_of_app. right. by left.
Qed.

Lemma foldl_inject_keeps cs pools c :
  Exists (λ pool, c ∈ pool) pools →
  Exists (λ pool, c ∈ pool) (foldl (inject r) pools cs).
Proof.
  revert pools. induction cs as [|cls cs IH]; intros pools Hex; simpl; [done|].
  by apply IH, inject_keeps.
Qed.

Lemma foldl_inject_adds cs pools m :
  length pools = length (template_slots r) → template_slots r ≠ [] →
  m ∈ cs → m ∈ available r → m ∉ exclude r →
  Exists (λ pool, m ∈ pool) (foldl (inject r) pools cs).
Proof.
  intros Hlen Hne Hm Hav Hex. revert pools Hlen.
  induction cs as [|cls cs IH]; intros pools Hlen; simpl.
  { by apply elem_of_nil in Hm. }
  apply elem_of_cons in Hm as [<-|Hm].
  - by apply foldl_inject_keeps, inject_adds.
  - apply IH; [done|]. by rewrite length_inject.
Qed.
End inject_facts.

(** A required class that is available and not excluded is in the pool of
    some slot when the enumeration starts, whatever the role pools held. *)
Theorem must_include_reaches_a_pool (r : request) (m : string) :
  template_slots r ≠ [] →
  m ∈ must_include r → m ∈ available r → m ∉ exclude r →
  Exists (λ pool, m ∈ pool) (slot_pools r).
Proof.
  intros Hne Hm Hav Hex. unfold slot_pools.
  apply foldl_inject_adds; try done.
  unfold initial_pools. apply length_imap.
Qed.

(** An instance: Bard is required in a trio whose role pools do not hold
    it. *)
Lemma must_include_reaches_a_pool_witness :
  Exists (λ pool, "Bard" ∈ pool)
    (slot_pools
       {| ratings := ratings_ex; era := "classic";
          available := ["Bard"; "Cleric"; "Paladin"; "Shaman"; "Warrior"; "Wizard"];
          template_slots := ["tank"; "healer"];
          boxing_mode := "manual"; start := "assisted";
          must_include := ["Bard"]; exclude := ∅;
          require_ports := false; require_run_speed := false;
          require_charm := false; require_pet_heavy := false;
          require_kiting := false; hardcore_required := false; limit := 15;
          return_explain := false |}).
Proof.
  apply must_include_reaches_a_pool.
  - done.
  - by apply (bool_decide_unpack _).
  - by apply (bool_decide_unpack _).
  - by apply (bool_decide_unpack _).
Defined.

(** *** The hardcore core in any template *)

Section hardcore_facts.
Context (r : request).

Lemma first_index_slot slot i :
  first_index (λ p, p.2 = slot) (template_slots r) = Some i →
  template_slots r !! i = Some slot.
Proof. intros (s & Hs & Heq)%first_index_Some. simpl in Heq. by subst. Qed.

Lemma hardcore_lock_lookup slot cls forced k :
  hardcore_lock r slot cls forced !! k
  = if mem cls (available_set r)
       && bool_decide (first_index (λ p, p.2 = slot) (template_slots r) = Some k)
    then Some [cls] else forced !! k.
Proof.
  unfold hardcore_lock.
  destruct (mem cls (available_set r)); simpl; [|by rewrite andb_false_r].
  rewrite andb_true_r. case_bool_decide as Hin; simpl.
  - destruct (first_index _ _) as [i|] eqn:Hi.
    + destruct (decide (i = k)) as [->|Hne].
      * by rewrite lookup_insert_eq, bool_decide_eq_true_2.
      * rewrite lookup_insert_ne by done.
        rewrite bool_decide_eq_false_2; [done|congruence].
    + by rewrite bool_decide_eq_false_2.
  - rewrite bool_decide_eq_false_2; [done|].
    intros Hk%first_index_slot. apply Hin. by eapply list_elem_of_lookup_2.
Qed.

Lemma hardcore_forced_lookup k :
  hardcore_required r = true →
  hardcore_forced r !! k
  = if mem "Bard" (available_set r)
       && bool_decide (first_index (λ p, p.2 = "cc") (template_slots r) = Some k)
    then Some ["Bard"]
    else if mem "Shaman" (available_set r)
       && bool_decide (first_index (λ p, p.2 = "slow") (template_slots r) = Some k)
    then Some ["Shaman"]
    else if mem "Cleric" (available_set r)
       && bool_decide (first_index (λ p, p.2 = "healer") (template_slots r) = Some k)
    then Some ["Cleric"]
    else None.
Proof.
  intros Hhc. unfold hardcore_forced. rewrite Hhc.
  by rewrite !hardcore_lock_lookup, lookup_empty.
Qed.

Lemma hardcore_forced_core slot cls i :
  hardcore_required r = true → (slot, cls) ∈ hardcore_core →
  cls ∈ available r →
  first_index (λ p, p.2 = slot) (template_slots r) = Some i →
  hardcore_forced r !! i = Some [cls].
Proof.
  intros Hhc Hcore Hav Hi. rewrite hardcore_forced_lookup by done.
  pose proof (first_index_slot _ _ Hi) as Hslot.
  assert (Hmem : mem cls (available_set r) = true)
    by by apply mem_true, elem_of_set_of.
  assert (Hother : ∀ slot', slot' ≠ slot →
    bool_decide (first_index (λ p, p.2 = slot') (template_slots r) = Some i)
    = false).
  { intros slot' Hne. apply bool_decide_eq_false_2.
    intros Hi'%first_index_slot. congruence. }
  unfold hardcore_core in Hcore.
  repeat (apply elem_of_cons in Hcore as [[= -> ->]|Hcore]);
    [| | |by apply elem_of_nil in Hcore].
  - rewrite (Hother "cc"), (Hother "slow") by done.
    rewrite !andb_false_r, Hmem. by rewrite bool_decide_eq_true_2.
  - rewrite (Hother "cc") by done.
    rewrite !andb_false_r, Hmem. by rewrite bool_decide_eq_true_2.
  - rewrite Hmem. by rewrite bool_decide_eq_true_2.
Qed.

Lemma hardcore_forced_free j s :
  template_slots r !! j = Some s → s ∉ hardcore_core.*1 →
  j ∉ dom (hardcore_forced r).
Proof.
  intros Hj Hs. apply not_elem_of_dom.
  destruct (hardcore_required r) eqn:Hhc;
    [|unfold hardcore_forced; by rewrite Hhc].
  rewrite hardcore_forced_lookup by done.
  assert (Hother : ∀ slot', slot' ∈ hardcore_core.*1 →
    bool_decide (first_index (λ p, p.2 = slot') (template_slots r) = Some j)
    = false).
  { intros slot' Hin. apply bool_decide_eq_false_2.
    intros Hi'%first_index_slot. congruence. }
  rewrite (Hother "cc"), (Hother "slow"), (Hother "healer")
    by (by apply (bool_decide_unpack _)).
  by rewrite !andb_false_r.
Qed.
End hardcore_facts.

(** In a hardcore request over any template that has a slot other than
    [healer], [slow] and [cc], every returned comp has Cleric in the first
    [healer] slot, Shaman in the first [slow] slot and Bard in the first
    [cc] slot, each when it is available; a required class never displaces
    them. *)
Theorem hardcore_core_is_locked
    (r : request) (slot cls : string) (i j : nat) (s : string) :
  hardcore_required r = true →
  (slot, cls) ∈ hardcore_core → cls ∈ available r →
  first_index (λ p, p.2 = slot) (template_slots r) = Some i →
  template_slots r !! j = Some s → s ∉ hardcore_core.*1 →
  ∃ res, generate_scored_recommendations r = Some res
         ∧ Forall (λ x, comp_of x !! i = Some cls) res.
Proof.
  intros Hhc Hcore Hav Hi Hj Hs.
  destruct (generate_accepted r) as (res & Hres & Hacc).
  exists res. split; [done|]. eapply Forall_impl; [exact Hacc|].
  intros x Hx. simpl.
  eapply (accepted_locked r i cls); [|exact Hj| |by eapply first_index_slot|done].
  - by eapply hardcore_forced_core.
  - by eapply hardcore_forced_free.
Qed.

(** An instance: the 5-box hardcore template with Shaman required. *)
Lemma hardcore_core_is_locked_witness :
  ∃ res,
    generate_scored_recommendations
      {| ratings := ratings_ex; era := "classic";
         available := ["Bard"; "Cleric"; "Paladin"; "Shaman"; "Warrior"; "Wizard"];
         template_slots := ["tank"; "healer"; "slow"; "cc"; "dps"];
         boxing_mode := "manual"; start := "assisted";
         must_include := ["Shaman"]; exclude := ∅;
         require_ports := false; require_run_speed := false;
         require_charm := false; require_pet_heavy := false;
         require_kiting := false; hardcore_required := true; limit := 15;
         return_explain := false |} = Some res
    ∧ Forall (λ x, comp_of x !! 2 = Some "Shaman") res.
Proof.
  apply (hardcore_core_is_locked _ "slow" "Shaman" 2 0 "tank").
  - done.
  - by apply (bool_decide_unpack _).
  - by apply (bool_decide_unpack _).
  - by vm_compute.
  - done.
  - by apply (bool_decide_unpack _).
Defined.

(** ** Nothing that passes is lost *)

Section complete.
Context (r : request).

Lemma visit_seen st picks st' :
  visit r st picks = Some st' → seen_inv r st →
  seen_inv r st' ∧ st.2 ⊆ st'.2
  ∧ (skip_duplicates r picks = false → picks ∈ st'.2).
Proof.
  unfold visit. intros Hv Hinv.
  destruct (skip_duplicates r picks) eqn:Hskip.
  { injection Hv as <-. split_and!; [done|done|done]. }
  case_bool_decide as Hseen.
  { injection Hv as <-. split_and!; [done|done|done]. }
  assert (Hsub : st.2 ⊆ {[picks]} ∪ st.2) by apply union_subseteq_r.
  assert (Hin : picks ∈ ({[picks]} ∪ st.2 : gset (list string)))
    by (apply elem_of_union; left; by apply elem_of_singleton).
  destruct (comp_matches_filters picks _ _) eqn:Hf; simpl in Hv.
  2:{ injection Hv as <-. split_and!; [|done|done]. intros c Hc Hcf Hcc.
      simpl in *. apply elem_of_union in Hc as [->%elem_of_singleton|Hc].
      - congruence.
      - by apply Hinv. }
  destruct (comp_matches_constraints picks _ _ _ _ _) eqn:Hc; simpl in Hv.
  2:{ injection Hv as <-. split_and!; [|done|done]. intros c Hc' Hcf Hcc.
      simpl in *. apply elem_of_union in Hc' as [->%elem_of_singleton|Hc'].
      - congruence.
      - by apply Hinv. }
  destruct (score_request r picks) as [[score d]|]; simpl in Hv; [|done].
  injection Hv as <-. split_and!; [|done|done]. intros c Hc' Hcf Hcc.
  simpl in *. rewrite fmap_app. apply elem_of_app.
  apply elem_of_union in Hc' as [->%elem_of_singleton|Hc'].
  - right. simpl. by left.
  - left. by apply Hinv.
Qed.

Lemma visit_all_seen l st st' :
  visit_all r st l = Some st' → seen_inv r st →
  seen_inv r st' ∧ st.2 ⊆ st'.2
  ∧ ∀ picks, picks ∈ l → skip_duplicates r picks = false → picks ∈ st'.2.
Proof.
  revert st. induction l as [|picks l IH]; intros st; simpl.
  { intros [= <-] Hinv. split_and!; [done|done|]. by intros ? ?%elem_of_nil. }
  destruct (visit r st picks) as [st1|] eqn:Hv; simpl; [|done].
  intros Hall Hinv.
  destruct (visit_seen _ _ _ Hv Hinv) as (Hinv1 & Hsub1 & Hin1).
  destruct (IH _ Hall Hinv1) as (Hinv' & Hsub' & Hin').
  split_and!; [done|by etrans|].
  intros c [->|Hc]%elem_of_cons Hskip; [|by apply Hin'].
  apply Hsub'. by apply Hin1.
Qed.
End complete.

(** The ranked list behind every [limit] holds exactly the combinations of
    the slot pools that pass the duplicate check, the filters and the
    constraints: the generator loses a passing combination only to
    [limit]. *)
Theorem generated_ranking_is_complete (r : request) :
  ∃ full,
    (∀ n, generate_scored_recommendations (with_limit r n)
          = Some (Py.slice_to full n))
    ∧ ∀ picks, picks ∈ comp_of <$> full
               ↔ picks ∈ Py.product (slot_pools r) ∧ passes r picks.
Proof.
  destruct (visit_all_spec r (Py.product (slot_pools r)) ([], ∅))
    as (st & Hst & Hsound).
  { apply Forall_forall. intros c Hc%product_length.
    by rewrite length_slot_pools in Hc. }
  exists (Py.sort_desc score_of st.1). split.
  - intros n. unfold generate_scored_recommendations.
    change (slot_pools (with_limit r n)) with (slot_pools r).
    by rewrite visit_all_with_limit, Hst.
  - intros picks. split.
    + intros (x & -> & Hx%elem_of_sort_desc)%list_elem_of_fmap.
      apply Hsound in Hx as [Hx%elem_of_nil|(? & ? & ? & ? & _)]; [done|].
      by split.
    + intros (Hprod & Hskip & Hf & Hc).
      destruct (visit_all_seen r _ _ _ Hst) as (Hinv & _ & Hin).
      { by intros c Hc'%elem_of_empty. }
      apply Hin in Hprod; [|done].
      apply (Hinv _ Hprod Hf) in Hc.
      apply list_elem_of_fmap in Hc as (x & -> & Hx).
      apply list_elem_of_fmap. exists x. split; [done|].
      by apply elem_of_sort_desc.
Qed.

(** ** Templates *)

Ltac lookup_chain n :=
  repeat match goal with
  | |- context [<[?k := _]> _ !! n] =>
      destruct (decide (k = n)) as [<-|?];
        [by rewrite lookup_insert_eq|rewrite lookup_insert_ne by done]
  end;
  rewrite lookup_empty, bool_decide_eq_false_2; [done|lia].

Lemma TEMPLATES_lookup n :
  TEMPLATES !! n
  = if bool_decide (2 ≤ n ≤ 6)%Z
    then Some (["tank"; "healer"]
               ++ match n with
                  | 3 => ["dps"]
                  | 4 => ["slow"; "dps"]
                  | 5 => ["slow"; "dps"; "dps"]
                  | 6 => ["slow"; "cc"; "dps"; "dps"]
                  | _ => []
                  end)%Z
    else None.
Proof.
  unfold TEMPLATES. cbn [list_to_map foldr fst snd]. lookup_chain n.
Qed.

Lemma HARDCORE_TEMPLATES_lookup n :
  HARDCORE_TEMPLATES !! n
  = if bool_decide (4 ≤ n ≤ 6)%Z
    then Some (["tank"; "healer"; "slow"; "cc"]
               ++ match n with
                  | 5 => ["dps"]
                  | 6 => ["dps"; "dps"]
                  | _ => []
                  end)%Z
    else None.
Proof.
  unfold HARDCORE_TEMPLATES. cbn [list_to_map foldr fst snd]. lookup_chain n.
Qed.

(** [get_template] answers for 2 to 6 boxes and raises [KeyError] for any
    other size, whatever the focus; a template it returns has one slot per
    box, starts with [tank] and [healer], and holds [slow] and [cc] when the
    focus is [solo_raid] and there are four boxes or more. *)
Theorem get_template_shape (box_size : Z) (focus : string) :
  match get_template box_size focus with
  | Some t =>
      (2 ≤ box_size ≤ 6)%Z
      ∧ Z.of_nat (length t) = box_size
      ∧ take 2 t = ["tank"; "healer"]
      ∧ (focus = "solo_raid" ∧ (4 ≤ box_size)%Z →
         take 4 t = ["tank"; "healer"; "slow"; "cc"])
  | None => (box_size < 2 ∨ 6 < box_size)%Z
  end.
Proof.
  unfold get_template.
  rewrite !HARDCORE_TEMPLATES_lookup, !TEMPLATES_lookup.
  destruct (decide (2 ≤ box_size ≤ 6)%Z) as [Hn|Hn].
  - assert (Hcases : box_size ∈ [2; 3; 4; 5; 6]%Z).
    { rewrite !elem_of_cons. lia. }
    repeat (apply elem_of_cons in Hcases as [->|Hcases]);
      [..|by apply elem_of_nil in Hcases];
      repeat case_bool_decide; simpl; try (exfalso; lia).
    all: split_and!; try lia; try done.
    all: intros [-> ?]; try done; try lia.
    all: exfalso; match goal with H : ¬ is_Some _ |- _ => by destruct H end.
  - assert (bool_decide (4 ≤ box_size ≤ 6)%Z = false) as ->
      by (apply bool_decide_eq_false_2; lia).
    rewrite (bool_decide_eq_false_2 (2 ≤ box_size ≤ 6)%Z) by done.
    assert (bool_decide (is_Some (@None (list string))) = false) as ->
      by (apply bool_decide_eq_false_2; by intros [? ?]).
    rewrite andb_false_r.
    destruct (negb (box_size =? 6)%Z) eqn:H6; [lia|].
    apply negb_false_iff, Z.eqb_eq in H6. lia.
Qed.

(** ** Role pools drawn from a class set *)

Lemma NoDup_length_le_size (l : list string) (s : gset string) :
  NoDup l → (∀ c, c ∈ l → c ∈ s) → length l ≤ size s.
Proof.
  intros Hnd Hsub. rewrite <-(size_list_to_set (C := gset string)) by done.
  apply subseteq_size. intros c Hc%elem_of_list_to_set. by apply Hsub.
Qed.

Section class_pools.
Context (available : list string) (ratings : ratings_t) (era : string).
Context (boxing_mode start : string) (require_charm : bool).
Context (Hnd : NoDup available).

Lemma members_by_all s cat n :
  size s ≤ n →
  all_ranked available ratings era cat s (members_by available ratings era s cat n).
Proof.
  intros Hn. unfold members_by. rewrite ranked_keyed, keyed_take.
  rewrite take_ge.
  - split; [apply sort_desc_perm|apply sort_desc_sorted].
  - rewrite length_sort_desc. etrans; [|exact Hn].
    apply NoDup_length_le_size; [by apply NoDup_filter|].
    by intros c [? _]%list_elem_of_filter.
Qed.

Lemma keyed_NoDup key use n : NoDup use → NoDup (keyed key use n).
Proof.
  intros Huse. rewrite keyed_take. eapply sublist_NoDup; [|apply sublist_take].
  by rewrite sort_desc_perm.
Qed.

Lemma keyed_length key use n : length (keyed key use n) ≤ n.
Proof. rewrite keyed_take, length_take. lia. Qed.

Lemma manual_use_NoDup use : NoDup use → NoDup (manual_use boxing_mode use).
Proof. unfold manual_use. case_bool_decide; [apply NoDup_filter|done]. Qed.
End class_pools.

(** The caps of the [tank], [healer], [pet_tank], [kiter] and
    [kiter_fear_snare] pools never cut a class off: over a duplicate-free
    list of available classes each of these pools holds every available
    class of its set, each once, the best rated first. *)
Theorem class_set_pools_hold_every_member
    (available : list string) (ratings : ratings_t)
    (era boxing_mode start : string) (require_charm : bool) :
  NoDup available →
  let pool := role_candidates available ratings era boxing_mode start
                require_charm in
  all_ranked available ratings era "tanking" TANKS (pool "tank")
  ∧ all_ranked available ratings era "healing" HEALERS (pool "healer")
  ∧ all_ranked available ratings era "pet_tanking" PET_TANKERS (pool "pet_tank")
  ∧ all_ranked available ratings era "kite" KITERS (pool "kiter")
  ∧ all_ranked available ratings era "kite"
      {[ "Necromancer"; "Druid"; "Wizard"; "Ranger" ]}
      (pool "kiter_fear_snare").
Proof.
  intros Hnd. simpl. unfold role_candidates.
  split_and!; repeat case_bool_decide; simplify_eq;
    (apply members_by_all; [done|apply Nat.leb_le; by vm_compute]).
Qed.

(** An instance: the classes of the example ratings. *)
Lemma class_set_pools_hold_every_member_witness :
  let available := ["Bard"; "Cleric"; "Paladin"; "Shaman"; "Warrior"; "Wizard"] in
  let pool := role_candidates available ratings_ex "classic" "manual"
                "assisted" false in
  all_ranked available ratings_ex "classic" "tanking" TANKS (pool "tank")
  ∧ all_ranked available ratings_ex "classic" "healing" HEALERS (pool "healer")
  ∧ all_ranked available ratings_ex "classic" "pet_tanking" PET_TANKERS
      (pool "pet_tank")
  ∧ all_ranked available ratings_ex "classic" "kite" KITERS (pool "kiter")
  ∧ all_ranked available ratings_ex "classic" "kite"
      {[ "Necromancer"; "Druid"; "Wizard"; "Ranger" ]}
      (pool "kiter_fear_snare").
Proof.
  apply class_set_pools_hold_every_member.
  apply (bool_decide_unpack _). by vm_compute.
Defined.

(** Over a duplicate-free list of available classes every role pool, for
    any slot name, is duplicate-free and holds at most ten classes. *)
Theorem role_pools_are_small
    (available : list string) (ratings : ratings_t)
    (era boxing_mode start : string) (require_charm : bool) (role : string) :
  NoDup available →
  let pool := role_candidates available ratings era boxing_mode start
                require_charm role in
  NoDup pool ∧ length pool ≤ 10.
Proof.
  intros Hnd. simpl. unfold role_candidates, members_by, top_by.
  rewrite !ranked_keyed.
  assert (Hfilter : ∀ (s : gset string), size s ≤ 10 →
    NoDup (filter (λ c, c ∈ s) available)
    ∧ length (filter (λ c, c ∈ s) available) ≤ 10).
  { intros s Hs. split; [by apply NoDup_filter|]. etrans; [|exact Hs].
    apply NoDup_length_le_size; [by apply NoDup_filter|].
    by intros c [? _]%list_elem_of_filter. }
  assert (Hkeyed : ∀ key use n, NoDup use → n ≤ 10 →
    NoDup (keyed key use n) ∧ length (keyed key use n) ≤ 10).
  { intros key use n Huse Hn. split; [by apply keyed_NoDup|].
    etrans; [apply keyed_length|done]. }
  repeat case_bool_decide; simpl.
  all: try (apply Hkeyed; [|lia]).
  all: try (apply Hfilter; apply Nat.leb_le; by vm_compute).
  all: try done.
  all: try by apply NoDup_filter.
  all: try (by apply manual_use_NoDup).
  all: try (by apply manual_use_NoDup, NoDup_filter).
  all: try (split; [apply NoDup_nil_2|simpl; lia]).
  all: try (split; [apply NoDup_singleton|simpl; lia]).
Qed.

(** An instance: the generic [dps] pool of the example ratings. *)
Lemma role_pools_are_small_witness :
  let pool := role_candidates
                ["Bard"; "Cleric"; "Paladin"; "Shaman"; "Warrior"; "Wizard"]
                ratings_ex "classic" "manual" "assisted" false "dps" in
  NoDup pool ∧ length pool ≤ 10.
Proof.
  apply role_pools_are_small.
  apply (bool_decide_unpack _). by vm_compute.
Defined.

(** The partner pools: [charm_partner] never offers Enchanter, and under
    manual boxing no partner pool offers a tank or a melee class. *)
Theorem partner_pools_exclusions
    (available : list string) (ratings : ratings_t)
    (era boxing_mode start : string) (require_charm : bool) :
  let pool := role_candidates available ratings era boxing_mode start
                require_charm in
  ("Enchanter" ∉ pool "charm_partner")
  ∧ (boxing_mode = "manual" →
     ∀ role c,
       role ∈ ["charm_partner"; "pet_partner"; "kite_partner_swarm";
               "kite_partner_fear_snare"] →
       c ∈ pool role → (c ∉ TANKS) ∧ (c ∉ MELEE_DPS)).
Proof.
  simpl. split.
  - unfold role_candidates. repeat case_bool_decide; simplify_eq.
    intros Hc%keyed_subseteq%manual_use_subseteq.
    by apply list_elem_of_filter in Hc as [? _].
  - intros Hmanual role c Hrole.
    assert (Hallowed : ∀ use key n,
      c ∈ keyed key (manual_use boxing_mode use) n → (c ∉ TANKS) ∧ (c ∉ MELEE_DPS)).
    { intros use key n Hc%keyed_subseteq. unfold manual_use in Hc.
      rewrite bool_decide_eq_true_2 in Hc by done.
      apply list_elem_of_filter in Hc as [Hc _].
      unfold _manual_partner_allowed in Hc.
      destruct (mem c TANKS) eqn:Ht; [done|].
      destruct (mem c MELEE_DPS) eqn:Hm; [done|].
      split; intros ?%mem_true; congruence. }
    unfold role_candidates.
    repeat (apply elem_of_cons in Hrole as [->|Hrole]);
      [..|by apply elem_of_nil in Hrole];
      repeat case_bool_decide; simplify_eq; apply Hallowed.
Qed.

(** ** Whole-comp terms and slot order *)

Lemma set_of_perm comp comp' : comp ≡ₚ comp' → set_of comp = set_of comp'.
Proof.
  intros Hperm. apply set_eq. intros c.
  by rewrite !elem_of_set_of, Hperm.
Qed.

Lemma count_in_perm s comp comp' :
  comp ≡ₚ comp' → count_in s comp = count_in s comp'.
Proof. intros Hperm. unfold count_in. by rewrite Hperm. Qed.

Lemma charm_synergy_sum comp b :
  foldl (λ bonus c,
      if bool_decide (c = "Enchanter") then bonus
      else if mem c {[ "Magician"; "Necromancer" ]} then (bonus + 14)%Z
      else if bool_decide (c = "Beastlord") then (bonus + 6)%Z
      else if mem c {[ "Wizard"; "Druid" ]} then (bonus + 8)%Z
      else bonus) b comp
  = (b + foldr (λ c t, charm_synergy_of c + t) 0 comp)%Z.
Proof.
  revert b. induction comp as [|c comp IH]; intros b; simpl; [lia|].
  rewrite IH. unfold charm_synergy_of.
  repeat (case_bool_decide || destruct (mem _ _)); lia.
Qed.

Lemma charm_synergy_total_perm comp comp' :
  comp ≡ₚ comp' →
  foldr (λ c t, charm_synergy_of c + t)%Z 0%Z comp
  = foldr (λ c t, charm_synergy_of c + t)%Z 0%Z comp'.
Proof.
  induction 1 as [|c l l' _ IH|c c' l|l l' l'' _ IH1 _ IH2]; simpl;
    [done|by rewrite IH|lia|congruence].
Qed.

(** The terms of the score that look at the comp as a whole do not depend
    on which slot a class sits in: [synergy_bonus], [_charm_synergy_bonus],
    [comp_matches_filters] and [comp_matches_constraints] give the same
    result on two comps that hold the same classes the same number of
    times. *)
Theorem whole_comp_terms_ignore_slot_order (comp comp' : list string) :
  comp ≡ₚ comp' →
  synergy_bonus comp = synergy_bonus comp'
  ∧ _charm_synergy_bonus comp = _charm_synergy_bonus comp'
  ∧ (∀ must_include exclude,
       comp_matches_filters comp must_include exclude
       = comp_matches_filters comp' must_include exclude)
  ∧ (∀ require_ports require_run_speed require_charm require_pet_heavy
       require_kiting,
       comp_matches_constraints comp require_ports require_run_speed
         require_charm require_pet_heavy require_kiting
       = comp_matches_constraints comp' require_ports require_run_speed
           require_charm require_pet_heavy require_kiting).
Proof.
  intros Hperm. pose proof (set_of_perm _ _ Hperm) as Hset.
  split_and!.
  - unfold synergy_bonus, classic_shape.
    by rewrite Hset, !(count_in_perm _ _ _ Hperm), (Permutation_length Hperm).
  - unfold _charm_synergy_bonus. rewrite !charm_synergy_sum.
    rewrite (charm_synergy_total_perm _ _ Hperm).
    assert (bool_decide ("Enchanter" ∈ comp) = bool_decide ("Enchanter" ∈ comp'))
      as -> by (apply bool_decide_ext; by rewrite Hperm).
    done.
  - intros must excl. unfold comp_matches_filters. by rewrite Hset.
  - intros rp rrs rc rph rk. unfold comp_matches_constraints. by rewrite Hset.
Qed.

(** An instance: a trio and the same trio with two slots swapped. *)
Lemma whole_comp_terms_ignore_slot_order_witness :
  let comp := ["Warrior"; "Cleric"; "Wizard"] in
  let comp' := ["Cleric"; "Warrior"; "Wizard"] in
  synergy_bonus comp = synergy_bonus comp'
  ∧ _charm_synergy_bonus comp = _charm_synergy_bonus comp'
  ∧ (∀ must_include exclude,
       comp_matches_filters comp must_include exclude
       = comp_matches_filters comp' must_include exclude)
  ∧ (∀ require_ports require_run_speed require_charm require_pet_heavy
       require_kiting,
       comp_matches_constraints comp require_ports require_run_speed
         require_charm require_pet_heavy require_kiting
       = comp_matches_constraints comp' require_ports require_run_speed
           require_charm require_pet_heavy require_kiting).
Proof.
  apply whole_comp_terms_ignore_slot_order. apply perm_swap.
Defined.

(** ** When the scorer raises *)

Section raise_facts.
Context (comp : list string) (ratings : ratings_t).
Context (era boxing_mode start : string) (require_charm : bool).
Context (template : list string).
Context (hardcore_required require_run_speed require_ports : bool).

Lemma main_healer_None :
  main_healer_of comp template = None
  ↔ ∃ i, first_index (λ p, p.2 = "healer") template = Some i ∧ length comp ≤ i.
Proof.
  unfold main_healer_of.
  destruct (first_index _ template) as [i|]; [|split; [done|by intros (? & ? & _)]].
  destruct (comp !! i) as [c|] eqn:Hc.
  - split; [done|]. intros (j & [= <-] & Hlen).
    apply lookup_lt_Some in Hc. lia.
  - split; [|done]. intros _. exists i. split; [done|].
    by apply lookup_ge_None.
Qed.

Lemma score_slots_None slot cls pairs a :
  main_healer_of comp template = None →
  score_slots comp ratings era boxing_mode start require_charm template
    hardcore_required a ((slot, cls) :: pairs) = None.
Proof.
  intros Hh. simpl. unfold score_slot, _slot_value. by rewrite Hh.
Qed.
End raise_facts.

(** [score_comp_explain] raises ([IndexError]) exactly when the comp is not
    empty and is too short to reach the first [healer] slot of the template;
    in every other case it returns. *)
Theorem score_comp_explain_raises_iff (comp : list string)
    (ratings : ratings_t) (era boxing_mode start : string)
    (require_charm : bool) (template_slots : list string)
    (hardcore_required require_run_speed require_ports : bool) :
  score_comp_explain comp ratings era boxing_mode start require_charm
    template_slots hardcore_required require_run_speed require_ports = None
  ↔ comp ≠ []
    ∧ ∃ i, first_index (λ p, p.2 = "healer") template_slots = Some i
           ∧ length comp ≤ i.
Proof.
  rewrite <-main_healer_None. unfold score_comp_explain. split.
  - intros Hnone.
    destruct (main_healer_of comp template_slots) as [h|] eqn:Hh.
    { destruct (score_slots_is_Some comp ratings era boxing_mode start
                  require_charm template_slots hardcore_required
                  (zip template_slots comp) slot_acc0) as [a Ha]; [by eauto|].
      by rewrite Ha in Hnone. }
    split; [|done]. intros ->. by rewrite zip_with_nil_r in Hnone.
  - intros [Hne Hh].
    destruct comp as [|c comp']; [done|].
    destruct template_slots as [|s template'].
    { by vm_compute in Hh. }
    change (zip (s :: template') (c :: comp'))
      with ((s, c) :: zip template' comp').
    by rewrite score_slots_None.
Qed.

(** ** The order in which required classes are visited *)

Lemma scored_by_inj r x y :
  scored_by r x → scored_by r y → comp_of x = comp_of y → x = y.
Proof.
  intros (d & Hd & Hx) (d' & Hd' & Hy) Hcomp.
  rewrite Hcomp, Hd' in Hd. injection Hd as Hscore <-.
  destruct x as [[sx cx] ex], y as [[sy cy] ey].
  unfold comp_of, score_of in *. simpl in *. congruence.
Qed.

Lemma ranking_spec (r : request) :
  ∃ full,
    (∀ n, generate_scored_recommendations (with_limit r n)
          = Some (Py.slice_to full n))
    ∧ NoDup full ∧ ∀ x, x ∈ full ↔ kept r x.
Proof.
  destruct (visit_all_spec r (Py.product (slot_pools r)) ([], ∅))
    as (st & Hst & Hsound).
  { apply Forall_forall. intros c Hc%product_length.
    by rewrite length_slot_pools in Hc. }
  assert (Hinv : loop_inv r st).
  { eapply visit_all_inv; [exact Hst|].
    split_and!; simpl; [constructor|by intros ? ?%elem_of_nil|constructor]. }
  destruct Hinv as (Hnd & _ & Hscored). rewrite Forall_forall in Hscored.
  destruct (visit_all_seen r _ _ _ Hst) as (Hseen & _ & Hin).
  { by intros c Hc'%elem_of_empty. }
  exists (Py.sort_desc score_of st.1). split_and!.
  - intros n. unfold generate_scored_recommendations.
    change (slot_pools (with_limit r n)) with (slot_pools r).
    by rewrite visit_all_with_limit, Hst.
  - rewrite sort_desc_perm. by eapply NoDup_fmap_1.
  - intros x. rewrite elem_of_sort_desc. split.
    + intros Hx. pose proof (Hscored _ Hx) as Hsx.
      apply Hsound in Hx as [Hx%elem_of_nil|(? & ? & ? & ? & _)]; [done|].
      by split_and!.
    + intros (Hprod & (Hskip & Hf & Hc) & Hsx).
      apply Hin in Hprod; [|done]. apply (Hseen _ Hprod Hf) in Hc.
      apply list_elem_of_fmap in Hc as (y & Hy & Hyin).
      by rewrite (scored_by_inj r x y Hsx (Hscored _ Hyin) Hy).
Qed.

Section inject_order.
Context (r : request).

Lemma inject_unfold pools c :
  inject r pools c
  = if inject_cond r pools c
    then alter (λ pool, pool ++ [c])
           (_best_slot_index_for_must_include c (template_slots r)
              (dom (hardcore_forced r))) pools
    else pools.
Proof.
  unfold inject, inject_cond.
  destruct (mem c (available_set r)); simpl; [|done].
  destruct (mem c (exclude r)); simpl; [done|].
  case_bool_decide as Hex; simpl; [done|].
  case_bool_decide as Hlt; simpl; [|done].
  apply list_eq. intros i.
  destruct (decide
    (i = _best_slot_index_for_must_include c (template_slots r)
           (dom (hardcore_forced r)))) as [->|Hne].
  - rewrite !list_lookup_alter_eq.
    destruct (pools !! _) as [pool|] eqn:Hpool; simpl; [|done].
    rewrite bool_decide_eq_false_2; [done|]. intros Hc. apply Hex.
    apply Exists_exists. exists pool. split; [|done].
    by eapply list_elem_of_lookup_2.
  - by rewrite !list_lookup_alter_ne.
Qed.

Lemma Exists_pools_equiv pools pools' c :
  pools_equiv pools pools' →
  Exists (λ pool, c ∈ pool) pools ↔ Exists (λ pool, c ∈ pool) pools'.
Proof.
  induction 1 as [|p p' ps ps' Hp _ IH]; [done|].
  by rewrite !Exists_cons, Hp, IH.
Qed.

Lemma inject_cond_equiv pools pools' c :
  pools_equiv pools pools' → inject_cond r pools c = inject_cond r pools' c.
Proof.
  intros Heq. unfold inject_cond. f_equal; [f_equal|].
  - f_equal. apply bool_decide_ext. by apply Exists_pools_equiv.
  - apply bool_decide_ext. by rewrite (Forall2_length _ _ _ Heq).
Qed.

Lemma inject_cond_alter pools c c' i :
  c ≠ c' →
  inject_cond r (alter (λ pool, pool ++ [c']) i pools) c = inject_cond r pools c.
Proof.
  intros Hne. unfold inject_cond. f_equal; [f_equal|].
  - f_equal. apply bool_decide_ext. rewrite !Exists_exists. split.
    + intros (pool & [j Hj]%list_elem_of_lookup & Hc).
      destruct (decide (j = i)) as [->|Hji].
      * rewrite list_lookup_alter_eq in Hj.
        destruct (pools !! _) as [pool0|] eqn:Hi; simplify_eq/=.
        exists pool0. split; [by eapply list_elem_of_lookup_2|].
        apply elem_of_app in Hc as [?|Hc%list_elem_of_singleton]; done.
      * rewrite list_lookup_alter_ne in Hj by done.
        exists pool. split; [by eapply list_elem_of_lookup_2|done].
    + intros (pool & [j Hj]%list_elem_of_lookup & Hc).
      destruct (decide (j = i)) as [->|Hji].
      * exists (pool ++ [c']). split.
        -- eapply list_elem_of_lookup_2.
           by rewrite list_lookup_alter_eq, Hj.
        -- apply elem_of_app. by left.
      * exists pool. split; [|done]. eapply list_elem_of_lookup_2.
        by rewrite list_lookup_alter_ne.
  - apply bool_decide_ext. by rewrite length_alter.
Qed.

Lemma pools_equiv_refl pools : pools_equiv pools pools.
Proof. induction pools; by constructor. Qed.

Lemma alter_equiv pools pools' i (f g : list string → list string) :
  pools_equiv pools pools' → (∀ p p', p ≡ₚ p' → f p ≡ₚ g p') →
  pools_equiv (alter f i pools) (alter g i pools').
Proof.
  intros Heq Hfg. apply Forall2_alter; [done|]. intros p p' _ _. apply Hfg.
Qed.

Lemma inject_proper pools pools' c :
  pools_equiv pools pools' →
  pools_equiv (inject r pools c) (inject r pools' c).
Proof.
  intros Heq. rewrite !inject_unfold, (inject_cond_equiv _ _ _ Heq).
  destruct (inject_cond r pools' c); [|done].
  apply alter_equiv; [done|]. intros p p' Hp. by rewrite Hp.
Qed.

Lemma inject_swap pools c1 c2 :
  pools_equiv (inject r (inject r pools c1) c2)
    (inject r (inject r pools c2) c1).
Proof.
  destruct (decide (c1 = c2)) as [->|Hne]; [apply pools_equiv_refl|].
  rewrite (inject_unfold pools c1), (inject_unfold pools c2).
  destruct (inject_cond r pools c1) eqn:H1, (inject_cond r pools c2) eqn:H2;
    rewrite !inject_unfold, ?inject_cond_alter, ?H1, ?H2 by done;
    try apply pools_equiv_refl.
  destruct (decide
    (_best_slot_index_for_must_include c1 (template_slots r)
       (dom (hardcore_forced r))
     = _best_slot_index_for_must_include c2 (template_slots r)
         (dom (hardcore_forced r)))) as [Heq|Hidx].
  - rewrite Heq, !list_alter_alter_eq.
    apply alter_equiv; [apply pools_equiv_refl|].
    intros p p' Hp. simpl. rewrite Hp, <-!(assoc_L (++)).
    apply Permutation_app_head, perm_swap.
  - rewrite list_alter_alter_ne by done. apply pools_equiv_refl.
Qed.

Lemma pools_equiv_trans p1 p2 p3 :
  pools_equiv p1 p2 → pools_equiv p2 p3 → pools_equiv p1 p3.
Proof.
  unfold pools_equiv. intros H12 H23.
  eapply Forall2_trans; [|exact H12|exact H23].
  intros x y z Hxy Hyz. by rewrite Hxy.
Qed.

Lemma foldl_inject_proper l pools pools' :
  pools_equiv pools pools' →
  pools_equiv (foldl (inject r) pools l) (foldl (inject r) pools' l).
Proof.
  revert pools pools'. induction l as [|c l IH]; intros pools pools' Heq;
    simpl; [done|].
  by apply IH, inject_proper.
Qed.

Lemma foldl_inject_perm l l' pools pools' :
  l ≡ₚ l' → pools_equiv pools pools' →
  pools_equiv (foldl (inject r) pools l) (foldl (inject r) pools' l').
Proof.
  intros Hperm. revert pools pools'.
  induction Hperm as [|c l l' _ IH|c c' l|l l' l'' _ IH1 _ IH2];
    intros pools pools' Heq; simpl.
  - done.
  - by apply IH, inject_proper.
  - apply foldl_inject_proper.
    eapply pools_equiv_trans; [apply inject_swap|].
    by do 2 apply inject_proper.
  - eapply pools_equiv_trans; [by apply IH1|].
    apply IH2, pools_equiv_refl.
Qed.

Lemma product_pools_equiv pools pools' (c : list string) :
  pools_equiv pools pools' → c ∈ Py.product pools → c ∈ Py.product pools'.
Proof.
  rewrite !elem_of_product. intros Heq Hc. revert pools' Heq.
  induction Hc as [|x pool c pools Hx _ IH]; intros pools' Heq.
  - inversion_clear Heq. constructor.
  - inversion_clear Heq as [|? pool' ? pools'' Hp Hps]. constructor.
    + by rewrite <-Hp.
    + by apply IH.
Qed.
End inject_order.

Lemma forallb_perm {A} (f : A → bool) l l' :
  l ≡ₚ l' → forallb f l = forallb f l'.
Proof.
  induction 1 as [|x l l' _ IH|x y l|l l' l'' _ IH1 _ IH2]; simpl;
    [done|by rewrite IH| |congruence].
  by destruct (f x), (f y).
Qed.

Lemma kept_with_must_include r l x :
  must_include r ≡ₚ l → kept r x → kept (with_must_include r l) x.
Proof.
  intros Hperm (Hprod & (Hskip & Hf & Hc) & Hs).
  split; [|split; [split_and!|]].
  - eapply product_pools_equiv; [|exact Hprod].
    unfold slot_pools.
    change (must_include (with_must_include r l)) with l.
    change (initial_pools (with_must_include r l)) with (initial_pools r).
    change (inject (with_must_include r l)) with (inject r).
    apply foldl_inject_perm; [done|apply pools_equiv_refl].
  - exact Hskip.
  - revert Hf. unfold comp_matches_filters. simpl.
    by rewrite (forallb_perm _ _ _ Hperm).
  - exact Hc.
  - exact Hs.
Qed.

(** The source visits the required classes in the iteration order of a set.
    That order does not matter to what is found: whatever the order, the
    ranked list behind every [limit] holds the same tuples; two orders can
    differ only in how comps of equal score are arranged. *)
Theorem must_include_order_is_irrelevant (r : request) (l : list string) :
  must_include r ≡ₚ l →
  ∃ full full',
    (∀ n, generate_scored_recommendations (with_limit r n)
          = Some (Py.slice_to full n))
    ∧ (∀ n, generate_scored_recommendations
              (with_limit (with_must_include r l) n)
            = Some (Py.slice_to full' n))
    ∧ full ≡ₚ full'.
Proof.
  intros Hperm.
  destruct (ranking_spec r) as (full & Hfull & Hnd & Hin).
  destruct (ranking_spec (with_must_include r l)) as (full' & Hfull' & Hnd' & Hin').
  exists full, full'. split_and!; [done|done|].
  apply NoDup_Permutation; [done|done|]. intros x.
  rewrite Hin, Hin'. split.
  - by apply kept_with_must_include.
  - intros Hx.
    apply (kept_with_must_include (with_must_include r l) (must_include r))
      in Hx; [|done].
    destruct r. exact Hx.
Qed.

(** An instance: two required classes in either order. *)
Lemma must_include_order_is_irrelevant_witness :
  let r :=
    {| ratings := ratings_ex; era := "classic";
       available := ["Bard"; "Cleric"; "Paladin"; "Shaman"; "Warrior"; "Wizard"];
       template_slots := ["tank"; "healer"; "dps"];
       boxing_mode := "manual"; start := "assisted";
       must_include := ["Bard"; "Shaman"]; exclude := ∅;
       require_ports := false; require_run_speed := false;
       require_charm := false; require_pet_heavy := false;
       require_kiting := false; hardcore_required := false; limit := 15;
       return_explain := false |} in
  ∃ full full',
    (∀ n, generate_scored_recommendations (with_limit r n)
          = Some (Py.slice_to full n))
    ∧ (∀ n, generate_scored_recommendations
              (with_limit (with_must_include r ["Shaman"; "Bard"]) n)
            = Some (Py.slice_to full' n))
    ∧ full ≡ₚ full'.
Proof.
  apply must_include_order_is_irrelevant. apply perm_swap.
Defined.

(** ** Templates with a charm tank *)

(** On a template with a [charm_tank] slot the charm requirement forces no
    slot: when pets and kiting are not required, no pool is restricted at
    all, whether or not Enchanter is available. *)
Theorem charm_tank_template_is_not_forced (r : request) :
  "charm_tank" ∈ template_slots r →
  require_pet_heavy r = false → require_kiting r = false →
  forced_slots r = ∅.
Proof.
  intros Htpl Hpet Hkite.
  unfold forced_slots, force_constraints_into_slots.
  assert (_build_requirement_sets (set_of (available r)) (require_ports r)
            (require_run_speed r) (require_charm r) (require_pet_heavy r)
            (require_kiting r) (already_satisfied r) = []) as ->; [|done].
  unfold _build_requirement_sets. rewrite Hpet, Hkite. simpl.
  destruct (require_charm r) eqn:Hcharm; simpl; [|done].
  unfold already_satisfied. rewrite Hcharm.
  rewrite bool_decide_eq_true_2 by done. simpl.
  destruct (nonempty (CHARMERS ∩ _)) eqn:Hne; simpl; [done|].
  apply nonempty_false in Hne.
  rewrite filter_cons_False; [done|]. intros Hreq. apply Hreq.
  apply set_eq. intros c. split; [|by intros ?%elem_of_empty].
  intros Hc. rewrite <-Hne. apply elem_of_intersection.
  split; [by apply elem_of_intersection in Hc as [? _]|].
  apply elem_of_union. by right.
Qed.

(** An instance: the charm trio. *)
Lemma charm_tank_template_is_not_forced_witness :
  forced_slots
    {| ratings := ratings_ex; era := "classic";
       available := ["Bard"; "Cleric"; "Enchanter"; "Warrior"; "Wizard"];
       template_slots := ["charm_tank"; "healer"; "dps"];
       boxing_mode := "manual"; start := "assisted";
       must_include := []; exclude := ∅;
       require_ports := false; require_run_speed := false;
       require_charm := true; require_pet_heavy := false;
       require_kiting := false; hardcore_required := false; limit := 15;
       return_explain := false |} = ∅.
Proof.
  apply charm_tank_template_is_not_forced.
  - by apply (bool_decide_unpack _).
  - done.
  - done.
Defined.
